(** * serrors: a status error with cause chaining and wire conversion

    A shallow embedding of [serrors.go].  Go values are modelled as the
    program has them:

    - [int] is [Z]; the [int32] field [Errcode] is a [Z] kept in range by
      the explicit conversion [int32] (two's complement wrap-around);
    - strings are byte strings ([string]);
    - a [map[string]string] is a reference: [option loc] ([None] is the nil
      map) into a store of [gmap string string];
    - a [*Error] is a reference: [option loc] ([None] is the nil pointer)
      into a store of [Error] records;
    - an [error] interface value is an inductive type that records the
      dynamic type of the value and its [Unwrap] chain;
    - a nil dereference is the outcome [Panic] of a small state monad.

    The packages [google.golang.org/grpc/status] and [.../codes] are
    modelled on their documented behaviour; the code mapper
    ([httpstatus.ToGRPCCode], [httpstatus.FromGRPCCode]) and [fmt.Sprintf]
    on caller-supplied formats are parameters of the development. *)

From Stdlib Require Import ZArith Lia.
From stdpp Require Import base option gmap strings list fin_maps sorting pretty.

Local Open Scope Z_scope.

(** ** Machine integers *)

(** Conversion of an integer to [int32]: the low 32 bits, read as a signed
    number.  ([int] is 64 bits wide on the usual targets, so the
    conversion in [New] does cut.) *)
Definition int32 (z : Z) : Z := (z + 2 ^ 31) mod 2 ^ 32 - 2 ^ 31.

(** Conversion of an integer to [uint32]: the low 32 bits. *)
Definition uint32 (z : Z) : Z := z mod 2 ^ 32.

Definition in_int32 (z : Z) : Prop := - 2 ^ 31 <= z < 2 ^ 31.

(** References into the store. *)
Abbreviation loc := positive.

(** ** Package [codes] *)

Module codes.

(** [type Code uint32] *)
Definition OK : Z := 0.
Definition Canceled : Z := 1.
Definition Unknown : Z := 2.
Definition InvalidArgument : Z := 3.
Definition DeadlineExceeded : Z := 4.
Definition NotFound : Z := 5.
Definition AlreadyExists : Z := 6.
Definition PermissionDenied : Z := 7.
Definition ResourceExhausted : Z := 8.
Definition FailedPrecondition : Z := 9.
Definition Aborted : Z := 10.
Definition OutOfRange : Z := 11.
Definition Unimplemented : Z := 12.
Definition Internal : Z := 13.
Definition Unavailable : Z := 14.
Definition DataLoss : Z := 15.
Definition Unauthenticated : Z := 16.

(** [func (c Code) String() string] *)
Definition String (c : Z) : string :=
  if decide (c = 0) then "OK"
  else if decide (c = 1) then "Canceled"
  else if decide (c = 2) then "Unknown"
  else if decide (c = 3) then "InvalidArgument"
  else if decide (c = 4) then "DeadlineExceeded"
  else if decide (c = 5) then "NotFound"
  else if decide (c = 6) then "AlreadyExists"
  else if decide (c = 7) then "PermissionDenied"
  else if decide (c = 8) then "ResourceExhausted"
  else if decide (c = 9) then "FailedPrecondition"
  else if decide (c = 10) then "Aborted"
  else if decide (c = 11) then "OutOfRange"
  else if decide (c = 12) then "Unimplemented"
  else if decide (c = 13) then "Internal"
  else if decide (c = 14) then "Unavailable"
  else if decide (c = 15) then "DataLoss"
  else if decide (c = 16) then "Unauthenticated"
  else "Code(" +:+ pretty c +:+ ")".

End codes.

(** ** Package [status]: the wire status

    The part of [google.golang.org/grpc/status] that the program calls,
    after the source of that package. *)

Module status.

(** A packed detail ([anypb.Any]) of a status message.  The one kind
    the program reads is [errdetails.ErrorInfo]; of that message the
    program writes and reads the [Metadata] field only.  A packed message
    holds the entries of the mapping, not a reference to it. *)
Inductive Any :=
| AnyErrorInfo (metadata : gmap string string)
| AnyOther (type_url : string).

(** [spb.Status]: the status message. *)
Record Proto := mkProto {
  Code_ : Z;              (* int32 *)
  Message_ : string;
  Details_ : list Any
}.

(** [*status.Status]: [None] is the nil status.  A status is immutable,
    so it is modelled as a value. *)
Definition Status := option Proto.

(** [func New(c codes.Code, msg string) *Status] *)
Definition New (c : Z) (msg : string) : Status :=
  Some {| Code_ := int32 c; Message_ := msg; Details_ := [] |}.

(** [func (s *Status) Code() codes.Code]: a nil status reads as OK. *)
Definition Code (s : Status) : Z :=
  match s with
  | None => codes.OK
  | Some p => uint32 (Code_ p)
  end.

(** [func (s *Status) Message() string] *)
Definition Message (s : Status) : string :=
  match s with
  | None => ""
  | Some p => Message_ p
  end.

(** [func (s *Status) String() string] *)
Definition String (s : Status) : string :=
  "rpc error: code = " +:+ codes.String (Code s) +:+ " desc = " +:+ Message s.

Section WithDetails.

(** Whether [anypb.New] packs an [ErrorInfo] holding these entries
    (protobuf refuses, for one, a string that is not valid UTF-8). *)
Variable packs : gmap string string → bool.

(** [func (s *Status) WithDetails(details ...proto.Message)], with
    results [*Status] and [error], at one [ErrorInfo] detail.  From its
    documentation: if any errors are encountered, it returns nil and the
    first error encountered; a status with code OK takes no details.  The
    second component tells whether an error is returned. *)
Definition WithDetails (s : Status) (metadata : gmap string string)
  : Status * bool :=
  match s with
  | None => (None, true)
  | Some p =>
      if decide (Code s = codes.OK) then (None, true)
      else if packs metadata
      then (Some {| Code_ := Code_ p; Message_ := Message_ p;
                    Details_ := Details_ p ++ [AnyErrorInfo metadata] |},
            false)
      else (None, true)
  end.

End WithDetails.

End status.

(** ** Error values and the store *)

(** A value of the interface type [error].

    - [nil_error] is the nil interface value.
    - [ptr_Error p] has dynamic type [*Error]; [ptr_Error None] is the
      typed nil pointer, a non-nil interface value.
    - [foreign msg gs next] has any other dynamic type: [msg] is what its
      [Error()] method returns; [gs] is [Some s] when the type has a
      method [GRPCStatus() *status.Status], which returns [s]; [next] is
      what its [Unwrap() error] method returns ([nil_error] when the type
      has no such method).  The value of the [Err] method of a status is
      one of these.  Types with an [As] method of their own or with
      [Unwrap() []error] are outside the model. *)
Inductive error :=
| nil_error
| ptr_Error (p : option loc)
| foreign (msg : string) (gs : option status.Status) (next : error).

(** Modelled from the spec: the struct [Status] that [Error] embeds, whose
    declaration is not in [serrors.go].  The Status Record of the spec has
    a code, a message and a metadata mapping; the names and types of the
    fields are those [serrors.go] uses: [Errcode] is set from
    [int32(code)], [Errmsg] from a string, [Result] from a
    [map[string]string]. *)
Record Status := mkStatus {
  Errcode : Z;                 (* int32 *)
  Errmsg : string;
  Result : option loc          (* map[string]string *)
}.

(** [type Error struct { Status; cause error }] *)
Record Error := mkError {
  Error_Status : Status;
  cause : error
}.

(** The store: the [Error] objects and the mappings that pointers and
    map values refer to. *)
Record heap := mkHeap {
  errs : gmap loc Error;
  maps : gmap loc (gmap string string)
}.

Definition empty_heap : heap := {| errs := ∅; maps := ∅ |}.

(** Outcome of running a piece of the program: a value and the store
    after it, or a run-time panic. *)
Inductive outcome (A : Type) :=
| Ret (a : A) (h : heap)
| Panic.

Arguments Ret {A} a h.
Arguments Panic {A}.

Definition M (A : Type) : Type := heap → outcome A.

Global Instance M_ret : MRet M := λ A a h, Ret a h.

Global Instance M_bind : MBind M := λ A B k m h,
  match m h with
  | Ret a h' => k a h'
  | Panic => Panic
  end.

Definition panic {A} : M A := λ _, Panic.

(** Reading through a [*Error]: a nil pointer panics.  (A pointer the
    store does not hold cannot arise in a Go program; the model panics
    there too.) *)
Definition load (p : option loc) : M Error :=
  λ h, match p with
       | None => Panic
       | Some l => match errs h !! l with
                   | Some e => Ret e h
                   | None => Panic
                   end
       end.

(** Writing through a [*Error]. *)
Definition store (p : option loc) (f : Error → Error) : M unit :=
  λ h, match p with
       | None => Panic
       | Some l => match errs h !! l with
                   | Some e =>
                       Ret () {| errs := <[l := f e]> (errs h);
                                 maps := maps h |}
                   | None => Panic
                   end
       end.

(** [&Error{...}]: a new object at an address not in use. *)
Definition alloc (e : Error) : M (option loc) :=
  λ h, let l := fresh (dom (errs h)) in
       Ret (Some l) {| errs := <[l := e]> (errs h); maps := maps h |}.

(** The entries of a map value, as [len] and [range] see them: the nil
    map has none. *)
Definition entries (m : option loc) (h : heap) : gmap string string :=
  match m with
  | None => ∅
  | Some l => default ∅ (maps h !! l)
  end.

Definition read_map (m : option loc) : M (gmap string string) :=
  λ h, Ret (entries m h) h.

(** [make(map[string]string, n)]: a new, empty mapping. *)
Definition make_map : M loc :=
  λ h, let l := fresh (dom (maps h)) in
       Ret l {| errs := errs h; maps := <[l := ∅]> (maps h) |}.

(** [m[k] = v] on the mapping at [l]. *)
Definition map_assign (l : loc) (k v : string) (h : heap) : heap :=
  {| errs := errs h;
     maps := <[l := <[k := v]> (default ∅ (maps h !! l))]> (maps h) |}.

(** [for k, v := range src { dst[k] = v }] *)
Definition copy_entries (src : gmap string string) (dst : loc) : M unit :=
  λ h, Ret () (map_fold (λ k v h', map_assign dst k v h') h src).

(** [func (s *Status) Err() error]: nil for a status that reads as OK,
    else a [*status.Error] holding [s]; that type has [Error] and
    [GRPCStatus] methods and no [Unwrap]. *)
Definition status_Err (s : status.Status) : error :=
  if decide (status.Code s = codes.OK) then nil_error
  else foreign (status.String s) (Some s) nil_error.

(** An unpacked detail, as the [Details] method of a status hands it
    out; an [*errdetails.ErrorInfo] holds its [Metadata] mapping by
    reference. *)
Inductive detail :=
| ErrorInfo (Metadata : option loc)
| other_detail.

(** Unpacking one detail allocates the message.  A mapping field with no
    entry on the wire is left nil. *)
Definition unpack (a : status.Any) : M detail :=
  match a with
  | status.AnyErrorInfo md =>
      if decide (md = ∅) then mret (ErrorInfo None)
      else l ← make_map; copy_entries md l;; mret (ErrorInfo (Some l))
  | status.AnyOther _ => mret other_detail
  end.

(** [func (s *Status) Details() []interface{}] *)
Definition status_Details (s : status.Status) : M (list detail) :=
  match s with
  | None => mret []
  | Some p =>
      foldr (λ a rest, d ← unpack a; ds ← rest; mret (d :: ds)) (mret [])
            (status.Details_ p)
  end.

(** ** Package [httpstatus] of kratos: the code mapper in use

    The table of [transport/http/status] of kratos v2.  The program is
    verified for any mapper; this one serves to run it. *)

Module httpstatus.

Definition ClientClosed : Z := 499.

(** [func ToGRPCCode(code int) codes.Code] *)
Definition ToGRPCCode (code : Z) : Z :=
  if decide (code = 200) then codes.OK
  else if decide (code = 400) then codes.InvalidArgument
  else if decide (code = 401) then codes.Unauthenticated
  else if decide (code = 403) then codes.PermissionDenied
  else if decide (code = 404) then codes.NotFound
  else if decide (code = 409) then codes.Aborted
  else if decide (code = 429) then codes.ResourceExhausted
  else if decide (code = 500) then codes.Internal
  else if decide (code = 501) then codes.Unimplemented
  else if decide (code = 503) then codes.Unavailable
  else if decide (code = 504) then codes.DeadlineExceeded
  else if decide (code = ClientClosed) then codes.Canceled
  else codes.Unknown.

(** [func FromGRPCCode(code codes.Code) int] *)
Definition FromGRPCCode (code : Z) : Z :=
  if decide (code = codes.OK) then 200
  else if decide (code = codes.Canceled) then ClientClosed
  else if decide (code = codes.Unknown) then 500
  else if decide (code = codes.InvalidArgument) then 400
  else if decide (code = codes.DeadlineExceeded) then 504
  else if decide (code = codes.NotFound) then 404
  else if decide (code = codes.AlreadyExists) then 409
  else if decide (code = codes.PermissionDenied) then 403
  else if decide (code = codes.Unauthenticated) then 401
  else if decide (code = codes.ResourceExhausted) then 429
  else if decide (code = codes.FailedPrecondition) then 400
  else if decide (code = codes.Aborted) then 409
  else if decide (code = codes.OutOfRange) then 400
  else if decide (code = codes.Unimplemented) then 501
  else if decide (code = codes.Internal) then 500
  else if decide (code = codes.Unavailable) then 503
  else if decide (code = codes.DataLoss) then 500
  else 500.

End httpstatus.

(** ** Formatting *)

(** [%v] of a [map[string]string]: [map[k1:v1 k2:v2]], keys in
    increasing (bytewise) order. *)
Definition key_le (a b : string * string) : Prop := String.leb a.1 b.1.

Global Instance key_le_dec a b : Decision (key_le a b) :=
  Is_true_dec (String.leb a.1 b.1).

Definition fmt_map (m : gmap string string) : string :=
  "map[" +:+
  String.concat " "
    ((λ kv : string * string, kv.1 +:+ ":" +:+ kv.2) <$>
       merge_sort key_le (map_to_list m))
  +:+ "]".

(** ** The program *)

Definition UnknownCode : Z := 500.
Definition UnknownReason : string := "".
Definition SupportPackageIsVersion1 : bool := true.

(** [errors.As(err, &se)] of the standard library with [se] of type
    [*Error]: the first value of dynamic type [*Error] on the [Unwrap]
    chain of [err], if any, be it a nil pointer.  The chain of an [*Error]
    itself is not followed: its type matches. *)
Fixpoint errors_As (err : error) : option (option loc) :=
  match err with
  | nil_error => None
  | ptr_Error p => Some p
  | foreign _ _ next => errors_As next
  end.

(** [func (e *Error) Error() string].  The format has four verbs and
    three operands: [fmt] renders the last verb as [%!v(MISSING)]. *)
Definition Error_Error (e : option loc) : M string :=
  x ← load e;
  md ← read_map (x.(Error_Status).(Result));
  mret ("errcode: code = " +:+ pretty (x.(Error_Status).(Errcode)) +:+
        " errmsg = " +:+ x.(Error_Status).(Errmsg) +:+
        " result = " +:+ fmt_map md +:+
        " cause = %!v(MISSING)").

(** [func (e *Error) Unwrap() error] *)
Definition Unwrap (e : option loc) : M error :=
  x ← load e; mret (cause x).

(** [func (e *Error) Is(err error) bool].  The scratch object of
    [new(Error)] is unreachable once [errors.As] has answered and is left
    out of the store. *)
Definition Is (e : option loc) (err : error) : M bool :=
  match errors_As err with
  | Some se =>
      x ← load se;
      y ← load e;
      mret (bool_decide (x.(Error_Status).(Errcode)
                         = y.(Error_Status).(Errcode)))
  | None => mret false
  end.

(** [func New(code int, message string) *Error] *)
Definition New (code : Z) (message : string) : M (option loc) :=
  alloc {| Error_Status := {| Errcode := int32 code; Errmsg := message;
                              Result := None |};
           cause := nil_error |}.

(** [func Clone(err *Error) *Error] *)
Definition Clone (err : option loc) : M (option loc) :=
  match err with
  | None => mret None
  | Some _ =>
      x ← load err;
      src ← read_map (x.(Error_Status).(Result));
      metadata ← make_map;
      copy_entries src metadata;;
      alloc {| cause := x.(cause);
               Error_Status := {| Errcode := x.(Error_Status).(Errcode);
                                  Errmsg := x.(Error_Status).(Errmsg);
                                  Result := Some metadata |} |}
  end.

(** [func (e *Error) WithCause(cause error) *Error] *)
Definition WithCause (e : option loc) (cause : error) : M (option loc) :=
  err ← Clone e;
  store err (λ x, {| Error_Status := Error_Status x; cause := cause |});;
  mret err.

(** [func (e *Error) WithMetadata(md map[string]string) *Error] *)
Definition WithMetadata (e : option loc) (md : option loc) : M (option loc) :=
  err ← Clone e;
  store err (λ x, {| Error_Status := {| Errcode := x.(Error_Status).(Errcode);
                                        Errmsg := x.(Error_Status).(Errmsg);
                                        Result := md |};
                     cause := x.(cause) |});;
  mret err.

(** A composite literal [map[string]string{...}] with the given entries. *)
Definition map_literal (m : gmap string string) : M (option loc) :=
  l ← make_map; copy_entries m l;; mret (Some l).

(** The mapper of kratos, for short. *)
Local Abbreviation tg := httpstatus.ToGRPCCode.
Local Abbreviation fg := httpstatus.FromGRPCCode.

(** A packer that takes every mapping. *)
Definition pack_all : gmap string string → bool := λ _, true.

(** A store to run the program on: a 404 error with one entry of
    metadata and a foreign cause, and a 200 error. *)
Definition sample_Error : Error :=
  {| Error_Status := {| Errcode := 404; Errmsg := "not found";
                        Result := Some 1%positive |};
     cause := foreign "boom" None nil_error |}.

Definition sample_OK : Error :=
  {| Error_Status := {| Errcode := 200; Errmsg := "ok"; Result := None |};
     cause := nil_error |}.

Definition sample_heap : heap :=
  {| errs := {[ 1%positive := sample_Error; 2%positive := sample_OK ]};
     maps := {[ 1%positive := {[ "resource" := "user/1" ]} ]} |}.

(** A run that ends with a value, not with a panic. *)
Definition returns {A} (m : M A) (h : heap) : Prop :=
  ∃ a h', m h = Ret a h'.

(** A pointer to an object of the store. *)
Definition allocated (h : heap) (p : option loc) : Prop :=
  match p with
  | None => False
  | Some l => is_Some (errs h !! l)
  end.

(** The first [*Error] on the chain of [err], if there is one, is an
    object of the store (and so not a typed nil). *)
Definition chain_ok (h : heap) (err : error) : Prop :=
  match errors_As err with
  | Some p => allocated h p
  | None => True
  end.

(** The status that [status.FromError] finds on a chain that holds no
    [*Error]: that of the first value with a [GRPCStatus] method. *)
Fixpoint wire_status (err : error) : status.Status :=
  match err with
  | nil_error => None
  | ptr_Error _ => None
  | foreign _ (Some s) _ => s
  | foreign _ None next => wire_status next
  end.

(** The store [h'] holds all that [h] holds, unchanged: every object and
    every mapping of [h] is in [h'] as it was. *)
Definition extends (h h' : heap) : Prop :=
  errs h ⊆ errs h' ∧ maps h ⊆ maps h'.

(** A map value that refers to a mapping of the store, or is nil. *)
Definition valid_map (h : heap) (m : option loc) : Prop :=
  ∀ k, m = Some k → is_Some (maps h !! k).

(** The entries of the first packed [ErrorInfo] of a list of details. *)
Fixpoint first_AnyErrorInfo (l : list status.Any)
  : option (gmap string string) :=
  match l with
  | [] => None
  | status.AnyErrorInfo md :: _ => Some md
  | status.AnyOther _ :: l' => first_AnyErrorInfo l'
  end.

Arguments status.WithDetails : simpl never.
Arguments status.New : simpl never.
Arguments load : simpl never.
Arguments store : simpl never.
Arguments alloc : simpl never.
Arguments read_map : simpl never.
Arguments make_map : simpl never.
Arguments copy_entries : simpl never.
Arguments Clone : simpl never.
Arguments New : simpl never.
Arguments WithMetadata : simpl never.
Arguments WithCause : simpl never.

(** Unfolds the sequencing of the monad, one step of the program at a
    time. *)
Ltac run := repeat (progress (unfold mbind, M_bind, mret, M_ret; cbn)).

Section serrors.

(** The collaborators the program is linked against: the code mapper
    of package [httpstatus], the packer of detail messages, and
    [fmt.Sprintf] on a caller's format and operands. *)
Variable ToGRPCCode : Z → Z.
Variable FromGRPCCode : Z → Z.
Variable packs : gmap string string → bool.
Variable any : Type.
Variable Sprintf : string → list any → string.

(** [func (e *Error) GRPCStatus() *status.Status].  The error result of
    [WithDetails] is discarded. *)
Definition GRPCStatus (e : option loc) : M status.Status :=
  x ← load e;
  md ← read_map (x.(Error_Status).(Result));
  let '(s, _) :=
    status.WithDetails packs
      (status.New (ToGRPCCode (x.(Error_Status).(Errcode)))
                  (x.(Error_Status).(Errmsg)))
      md in
  mret s.

(** [func Newf(code int, format string, a ...interface{}) *Error] *)
Definition Newf (code : Z) (format : string) (a : list any)
  : M (option loc) :=
  New code (Sprintf format a).

(** [func Errorf(code int, format string, a ...interface{}) error] *)
Definition Errorf (code : Z) (format : string) (a : list any) : M error :=
  p ← New code (Sprintf format a); mret (ptr_Error p).

(** Method calls through the interface: [err.Error()]. *)
Definition call_Error (err : error) : M string :=
  match err with
  | nil_error => panic
  | ptr_Error p => Error_Error p
  | foreign msg _ _ => mret msg
  end.

(** Whether the dynamic type of [err] has a method
    [GRPCStatus() *status.Status], and the call if it has. *)
Definition call_GRPCStatus (err : error) : option (M status.Status) :=
  match err with
  | nil_error => None
  | ptr_Error p => Some (GRPCStatus p)
  | foreign _ gs _ => mret <$> gs
  end.

(** [errors.As(err, &gs)] with [gs] of the interface type with the one
    method [GRPCStatus]: the first value on the chain that has it. *)
Fixpoint errors_As_grpcstatus (err : error) : option (M status.Status) :=
  match err with
  | nil_error => None
  | ptr_Error p => Some (GRPCStatus p)
  | foreign _ (Some s) _ => Some (mret s)
  | foreign _ None next => errors_As_grpcstatus next
  end.

(** [func FromError(err error)] of package [status], with results
    [*Status] and [bool] (grpc-go 1.55 and later: the chain of [err] is
    searched, and a nil status counts as none). *)
Definition status_FromError (err : error) : M (status.Status * bool) :=
  match err with
  | nil_error => mret (None, true)
  | _ =>
      match call_GRPCStatus err with
      | Some call =>
          grpcStatus ← call;
          match grpcStatus with
          | None =>
              msg ← call_Error err;
              mret (status.New codes.Unknown msg, false)
          | Some _ => mret (grpcStatus, true)
          end
      | None =>
          match errors_As_grpcstatus err with
          | Some call =>
              grpcStatus ← call;
              match grpcStatus with
              | None =>
                  msg ← call_Error err;
                  mret (status.New codes.Unknown msg, false)
              | Some p =>
                  msg ← call_Error err;
                  mret (Some {| status.Code_ := status.Code_ p;
                                status.Message_ := msg;
                                status.Details_ := status.Details_ p |},
                        true)
              end
          | None =>
              msg ← call_Error err;
              mret (status.New codes.Unknown msg, false)
          end
      end
  end.

(** The loop of [FromError] over the details: the first [ErrorInfo]
    decides. *)
Fixpoint first_ErrorInfo (ds : list detail) : option (option loc) :=
  match ds with
  | [] => None
  | ErrorInfo md :: _ => Some md
  | other_detail :: ds' => first_ErrorInfo ds'
  end.

(** [func FromError(err error) *Error] *)
Definition FromError (err : error) : M (option loc) :=
  match err with
  | nil_error => mret None
  | _ =>
      match errors_As err with
      | Some se => mret se
      | None =>
          '(gs, ok) ← status_FromError err;
          if negb ok then
            msg ← call_Error err;
            New UnknownCode msg
          else
            ret_ ← New (FromGRPCCode (status.Code gs)) (status.Message gs);
            ds ← status_Details gs;
            match first_ErrorInfo ds with
            | Some md => WithMetadata ret_ md
            | None => mret ret_
            end
      end
  end.

(** [func Code(err error) int] *)
Definition Code (err : error) : M Z :=
  match err with
  | nil_error => mret 200
  | _ =>
      p ← FromError err;
      x ← load p;
      mret (x.(Error_Status).(Errcode))
  end.

(** The round trip of the wire conversion: outbound with [GRPCStatus],
    carried as the error of the status, inbound with [FromError]. *)
Definition round_trip (e : option loc) : M (option loc) :=
  s ← GRPCStatus e; FromError (status_Err s).

Arguments status_FromError : simpl never.
Arguments status_Details : simpl never.
Arguments GRPCStatus : simpl never.
Arguments FromError : simpl never.

(** ** Machine integers *)

Lemma int32_range z : in_int32 (int32 z).
Proof.
  unfold in_int32, int32.
  pose proof (Z.mod_pos_bound (z + 2 ^ 31) (2 ^ 32) ltac:(lia)). lia.
Qed.

Lemma int32_id z : in_int32 z → int32 z = z.
Proof.
  unfold in_int32, int32. intros Hz.
  rewrite Z.mod_small by lia. lia.
Qed.

Lemma int32_fixed z : int32 z = z ↔ in_int32 z.
Proof.
  split; [intros <-; apply int32_range | apply int32_id].
Qed.

Lemma int32_congruent z : (int32 z - z) mod 2 ^ 32 = 0.
Proof.
  unfold int32.
  rewrite (Z.mod_eq (z + 2 ^ 31) (2 ^ 32)) by lia.
  replace (z + 2 ^ 31 - 2 ^ 32 * ((z + 2 ^ 31) `div` 2 ^ 32) - 2 ^ 31 - z)
    with ((- ((z + 2 ^ 31) `div` 2 ^ 32)) * 2 ^ 32) by lia.
  apply Z.mod_mul. lia.
Qed.

Lemma uint32_int32 c : 0 <= c < 2 ^ 32 → uint32 (int32 c) = c.
Proof.
  intros Hc. unfold uint32.
  rewrite <- (Z.mod_small c (2 ^ 32)) at 2 by lia.
  pose proof (int32_congruent c) as H.
  apply Z.mod_divide in H; [|lia]. destruct H as [k Hk].
  replace (int32 c) with (c + k * 2 ^ 32) by lia.
  apply Z.mod_add. lia.
Qed.

(** ** The store *)

Lemma fresh_errs h : errs h !! fresh (dom (errs h)) = None.
Proof. apply not_elem_of_dom, is_fresh. Qed.

Lemma fresh_maps h : maps h !! fresh (dom (maps h)) = None.
Proof. apply not_elem_of_dom, is_fresh. Qed.

Lemma fresh_insert_ne (E : gmap loc Error) l x :
  fresh (dom (<[l := x]> E)) ≠ l.
Proof.
  intros Heq. pose proof (is_fresh (dom (<[l := x]> E))) as Hf.
  rewrite Heq, dom_insert_L in Hf. set_solver.
Qed.

Lemma load_allocated h l x :
  errs h !! l = Some x → load (Some l) h = Ret x h.
Proof. intros H. unfold load. by rewrite H. Qed.

(** The loop that copies a mapping adds its entries to the target. *)
Lemma copy_entries_spec src dst h m0 :
  maps h !! dst = Some m0 →
  copy_entries src dst h =
    Ret () {| errs := errs h; maps := <[dst := src ∪ m0]> (maps h) |}.
Proof.
  intros Hdst. unfold copy_entries. f_equal.
  induction src as [|k v src Hk Hfirst IH] using map_first_key_ind.
  - rewrite map_fold_empty, (left_id_L ∅ (∪)).
    rewrite insert_id; [by destruct h | done].
  - rewrite map_fold_insert_first_key by done.
    rewrite IH. unfold map_assign. simpl.
    rewrite lookup_insert_eq. simpl.
    rewrite insert_insert_eq. by rewrite insert_union_l.
Qed.

Lemma map_literal_spec m h :
  map_literal m h =
    Ret (Some (fresh (dom (maps h))))
        {| errs := errs h; maps := <[fresh (dom (maps h)) := m]> (maps h) |}.
Proof.
  unfold map_literal, make_map. run.
  erewrite copy_entries_spec by (simpl; apply lookup_insert_eq).
  simpl. by rewrite insert_insert_eq, (right_id_L ∅ (∪)).
Qed.

(** ** The copying operations *)


(** What [Clone] does to the store: one new mapping with the entries of
    the source, one new object that refers to it. *)
Lemma Clone_spec h l x :
  errs h !! l = Some x →
  Clone (Some l) h =
    Ret (Some (fresh (dom (errs h))))
        {| errs := <[fresh (dom (errs h)) :=
                      {| Error_Status :=
                           {| Errcode := x.(Error_Status).(Errcode);
                              Errmsg := x.(Error_Status).(Errmsg);
                              Result := Some (fresh (dom (maps h))) |};
                         cause := x.(cause) |}]> (errs h);
           maps := <[fresh (dom (maps h)) :=
                      entries (x.(Error_Status).(Result)) h]> (maps h) |}.
Proof.
  intros Hl. unfold Clone.
  run. rewrite (load_allocated _ _ _ Hl).
  unfold read_map, make_map. run.
  erewrite copy_entries_spec by (simpl; apply lookup_insert_eq).
  unfold alloc. simpl.
  by rewrite insert_insert_eq, (right_id_L ∅ (∪)).
Qed.

Lemma store_allocated h l x f :
  errs h !! l = Some x →
  store (Some l) f h =
    Ret () {| errs := <[l := f x]> (errs h); maps := maps h |}.
Proof. intros H. unfold store. by rewrite H. Qed.

Lemma WithCause_spec h l x c :
  errs h !! l = Some x →
  WithCause (Some l) c h =
    Ret (Some (fresh (dom (errs h))))
        {| errs := <[fresh (dom (errs h)) :=
                      {| Error_Status :=
                           {| Errcode := x.(Error_Status).(Errcode);
                              Errmsg := x.(Error_Status).(Errmsg);
                              Result := Some (fresh (dom (maps h))) |};
                         cause := c |}]> (errs h);
           maps := <[fresh (dom (maps h)) :=
                      entries (x.(Error_Status).(Result)) h]> (maps h) |}.
Proof.
  intros Hl. unfold WithCause.
  run. rewrite (Clone_spec _ _ _ Hl).
  erewrite store_allocated by (simpl; apply lookup_insert_eq).
  simpl. by rewrite insert_insert_eq.
Qed.

Lemma WithMetadata_spec h l x md :
  errs h !! l = Some x →
  WithMetadata (Some l) md h =
    Ret (Some (fresh (dom (errs h))))
        {| errs := <[fresh (dom (errs h)) :=
                      {| Error_Status :=
                           {| Errcode := x.(Error_Status).(Errcode);
                              Errmsg := x.(Error_Status).(Errmsg);
                              Result := md |};
                         cause := x.(cause) |}]> (errs h);
           maps := <[fresh (dom (maps h)) :=
                      entries (x.(Error_Status).(Result)) h]> (maps h) |}.
Proof.
  intros Hl. unfold WithMetadata.
  run. rewrite (Clone_spec _ _ _ Hl).
  erewrite store_allocated by (simpl; apply lookup_insert_eq).
  simpl. by rewrite insert_insert_eq.
Qed.

(** A mapping of the store reads the same after a new one is added. *)
Lemma entries_insert_fresh h E m md :
  (∀ k, md = Some k → is_Some (maps h !! k)) →
  entries md {| errs := E; maps := <[fresh (dom (maps h)) := m]> (maps h) |}
  = entries md h.
Proof.
  intros Hmd. destruct md as [k|]; [|done]. simpl.
  destruct (Hmd k eq_refl) as [m0 Hm0].
  rewrite lookup_insert_ne; [done|].
  intros <-. by rewrite fresh_maps in Hm0.
Qed.

(** C8. [Clone(nil)] is nil.  For an [Error] [x] at [l], [Clone] returns
    a pointer [l'] to a new object with the code and the message of
    [x], whose metadata is a new mapping [lm] holding the entries of
    the metadata of [x], and whose cause is the cause of [x] itself
    (the same interface value, so the same reference).  Nothing else in
    the store changes. *)
Theorem Clone_correct :
  (∀ h, Clone None h = Ret None h) ∧
  (∀ h l x,
     errs h !! l = Some x →
     ∃ l' lm h',
       Clone (Some l) h = Ret (Some l') h' ∧
       errs h !! l' = None ∧
       maps h !! lm = None ∧
       errs h' !! l' =
         Some {| Error_Status :=
                   {| Errcode := x.(Error_Status).(Errcode);
                      Errmsg := x.(Error_Status).(Errmsg);
                      Result := Some lm |};
                 cause := x.(cause) |} ∧
       maps h' !! lm = Some (entries (x.(Error_Status).(Result)) h) ∧
       (∀ k, entries (Some lm) h' !! k
             = entries (x.(Error_Status).(Result)) h !! k) ∧
       (∀ j, j ≠ l' → errs h' !! j = errs h !! j) ∧
       (∀ j, j ≠ lm → maps h' !! j = maps h !! j)).
Proof.
  split; [done|].
  intros h l x Hl.
  eexists _, _, _. split; [by apply Clone_spec|]. simpl.
  split; [apply fresh_errs|].
  split; [apply fresh_maps|].
  split; [apply lookup_insert_eq|].
  split; [apply lookup_insert_eq|].
  split; [intros k; by rewrite lookup_insert_eq|].
  split; intros j Hj; by rewrite lookup_insert_ne.
Qed.

(** C9. For an [Error] [x] at [l] and any [c], [WithCause] returns a
    pointer to an object with the code and message of [x], metadata
    with the same entries, and [Unwrap] of it returns [c]; the object
    at [l] and the entries of its metadata are as before. *)
Theorem WithCause_correct h l x c :
  errs h !! l = Some x →
  ∃ l' y h',
    WithCause (Some l) c h = Ret (Some l') h' ∧
    errs h' !! l' = Some y ∧
    y.(Error_Status).(Errcode) = x.(Error_Status).(Errcode) ∧
    y.(Error_Status).(Errmsg) = x.(Error_Status).(Errmsg) ∧
    entries (y.(Error_Status).(Result)) h'
      = entries (x.(Error_Status).(Result)) h ∧
    Unwrap (Some l') h' = Ret c h' ∧
    l' ≠ l ∧
    errs h' !! l = Some x ∧
    entries (x.(Error_Status).(Result)) h'
      = entries (x.(Error_Status).(Result)) h.
Proof.
  intros Hl.
  assert (fresh (dom (errs h)) ≠ l) as Hne.
  { intros Heq. pose proof (fresh_errs h) as Hf. rewrite Heq in Hf. congruence. }
  eexists _, _, _. split; [by apply WithCause_spec|]. simpl.
  split; [apply lookup_insert_eq|]. simpl.
  split; [done|]. split; [done|].
  split; [by rewrite lookup_insert_eq|].
  split.
  { unfold Unwrap. run.
    by erewrite load_allocated by (simpl; apply lookup_insert_eq). }
  split; [done|].
  split; [by rewrite lookup_insert_ne|].
  destruct (x.(Error_Status).(Result)) as [k|]; [|done]. simpl.
  destruct (decide (k = fresh (dom (maps h)))) as [->|Hk].
  - by rewrite lookup_insert_eq.
  - by rewrite lookup_insert_ne.
Qed.

(** C7. For [Error]s at [l1] and [l2], [Is] returns true exactly when
    their codes are equal, whatever their messages, metadata and
    causes; two errors made with one code and any two messages
    match. *)
Theorem Is_code_only :
  (∀ h l1 l2 x1 x2,
     errs h !! l1 = Some x1 →
     errs h !! l2 = Some x2 →
     ∃ b, Is (Some l1) (ptr_Error (Some l2)) h = Ret b h ∧
          (b = true ↔
           x1.(Error_Status).(Errcode) = x2.(Error_Status).(Errcode))) ∧
  (∀ h code m1 m2,
     ∃ h', (p1 ← New code m1; p2 ← New code m2; Is p1 (ptr_Error p2)) h
           = Ret true h').
Proof.
  split.
  - intros h l1 l2 x1 x2 H1 H2.
    eexists. split.
    + unfold Is. simpl. run.
      rewrite (load_allocated _ _ _ H2). rewrite (load_allocated _ _ _ H1).
      reflexivity.
    + rewrite bool_decide_eq_true. split; congruence.
  - intros h code m1 m2. eexists.
    unfold New, alloc. run. unfold Is. simpl. run.
    erewrite load_allocated by (simpl; apply lookup_insert_eq).
    erewrite load_allocated.
    2:{ simpl. rewrite lookup_insert_ne by apply fresh_insert_ne.
        apply lookup_insert_eq. }
    simpl. by rewrite bool_decide_eq_true_2.
Qed.

(** ** Construction and inspection *)

Lemma New_spec code message h :
  New code message h =
    Ret (Some (fresh (dom (errs h))))
        {| errs := <[fresh (dom (errs h)) :=
                      {| Error_Status := {| Errcode := int32 code;
                                            Errmsg := message;
                                            Result := None |};
                         cause := nil_error |}]> (errs h);
           maps := maps h |}.
Proof. reflexivity. Qed.

(** An [*Error] handed to [FromError] comes back as it is. *)
Lemma FromError_ptr p h : FromError (ptr_Error p) h = Ret p h.
Proof. reflexivity. Qed.

(** C2, amended. For every code in the range of [int32] and every
    message, [FromError(New(code, message))] is an [Error] whose code is
    [code] and whose message is [message]. *)
Theorem FromError_New h code message :
  in_int32 code →
  ∃ l x h',
    (p ← New code message; FromError (ptr_Error p)) h = Ret (Some l) h' ∧
    errs h' !! l = Some x ∧
    x.(Error_Status).(Errcode) = code ∧
    x.(Error_Status).(Errmsg) = message.
Proof.
  intros Hcode. eexists _, _, _.
  split; [run; by rewrite New_spec|]. simpl.
  split; [apply lookup_insert_eq|]. simpl.
  split; [by apply int32_id|done].
Qed.

(** C10. [New] keeps the code in an [int32] field: the code that
    [FromError] and [Code] show for [New(code, message)] is [code]
    reduced to 32 bits (in the range of [int32] and congruent to [code]
    modulo 2^32); it is [code] itself exactly when [code] is in the
    range of [int32]. *)
Theorem New_code_int32 h code message :
  ∃ l x h',
    (p ← New code message; FromError (ptr_Error p)) h = Ret (Some l) h' ∧
    errs h' !! l = Some x ∧
    x.(Error_Status).(Errcode) = int32 code ∧
    (p ← New code message; Code (ptr_Error p)) h = Ret (int32 code) h' ∧
    in_int32 (int32 code) ∧
    (int32 code - code) mod 2 ^ 32 = 0 ∧
    (int32 code = code ↔ in_int32 code).
Proof.
  eexists _, _, _.
  split; [run; by rewrite New_spec|]. simpl.
  split; [apply lookup_insert_eq|]. simpl.
  split; [done|].
  split.
  { run. rewrite New_spec. unfold Code. run. rewrite FromError_ptr.
    by erewrite load_allocated by (simpl; apply lookup_insert_eq). }
  split; [apply int32_range|].
  split; [apply int32_congruent|apply int32_fixed].
Qed.

(** C5. [Code(nil)] is 200; for a non-nil [err], [Code(err)] is the code
    field read through the pointer that [FromError(err)] returns (and
    panics when that read does). *)
Theorem Code_correct :
  (∀ h, Code nil_error h = Ret 200 h) ∧
  (∀ err h,
     err ≠ nil_error →
     Code err h =
       match FromError err h with
       | Ret p h' =>
           match load p h' with
           | Ret x h'' => Ret (x.(Error_Status).(Errcode)) h''
           | Panic => Panic
           end
       | Panic => Panic
       end) ∧
  (∀ err h l h' x,
     err ≠ nil_error →
     FromError err h = Ret (Some l) h' →
     errs h' !! l = Some x →
     Code err h = Ret (x.(Error_Status).(Errcode)) h').
Proof.
  assert (∀ err h, err ≠ nil_error →
     Code err h =
       match FromError err h with
       | Ret p h' =>
           match load p h' with
           | Ret x h'' => Ret (x.(Error_Status).(Errcode)) h''
           | Panic => Panic
           end
       | Panic => Panic
       end) as Hcode.
  { intros err h Hnil. unfold Code.
    destruct err as [|p|msg gs next]; [done| |].
    - run. by destruct (load p h).
    - unfold mbind, M_bind.
      destruct (FromError (foreign msg gs next) h) as [q h'|]; [|done].
      by destruct (load q h'). }
  split; [done|]. split; [done|].
  intros err h l h' x Hnil Hfrom Hl.
  rewrite Hcode, Hfrom by done.
  by rewrite (load_allocated _ _ _ Hl).
Qed.

(** ** Inbound conversion of foreign errors *)

(** On a chain that holds no [*Error], the search for a value with a
    [GRPCStatus] method finds what [wire_status] describes. *)
Lemma errors_As_grpcstatus_foreign err :
  errors_As err = None →
  (errors_As_grpcstatus err = None ∧ wire_status err = None) ∨
  (∃ s, errors_As_grpcstatus err = Some (mret s) ∧ wire_status err = s).
Proof.
  induction err as [|p|msg gs next IH]; simpl; intros Has.
  - by left.
  - done.
  - destruct gs as [s|]; [right; by exists s|]. by apply IH.
Qed.

(** [status.FromError] on such a chain: it reports a status exactly
    when [wire_status] is one, and leaves the store alone. *)
Lemma status_FromError_foreign msg gs next h :
  errors_As next = None →
  ∃ s, status_FromError (foreign msg gs next) h
       = Ret (s, bool_decide (is_Some (wire_status (foreign msg gs next)))) h
     ∧ (is_Some (wire_status (foreign msg gs next)) →
        status.Code s = status.Code (wire_status (foreign msg gs next)) ∧
        match s, wire_status (foreign msg gs next) with
        | Some p, Some q => status.Details_ p = status.Details_ q
        | _, _ => False
        end ∧
        (gs = Some s ∨ (gs = None ∧ status.Message s = msg))).
Proof.
  intros Has. unfold status_FromError. simpl.
  destruct gs as [[p|]|]; simpl.
  - exists (Some p). split; [done|]. intros _. eauto.
  - eexists. split; [run; done|]. by intros [? ?].
  - destruct (errors_As_grpcstatus_foreign next Has) as [[-> ->]|[s [-> ->]]].
    + eexists. split; [run; done|]. by intros [? ?].
    + destruct s as [p|]; run.
      * eexists. split; [done|]. intros _. simpl. eauto.
      * eexists. split; [done|]. by intros [? ?].
Qed.

(** C6. A non-nil error whose chain holds no [*Error] and that carries
    no wire status comes back from [FromError] as a new [Error] with
    code 500, the string form of the error as message, no metadata and
    no cause. *)
Theorem FromError_opaque err h :
  err ≠ nil_error →
  errors_As err = None →
  wire_status err = None →
  ∃ l x msg h',
    FromError err h = Ret (Some l) h' ∧
    call_Error err h = Ret msg h ∧
    errs h !! l = None ∧
    errs h' !! l = Some x ∧
    x.(Error_Status).(Errcode) = 500 ∧
    x.(Error_Status).(Errcode) = UnknownCode ∧
    x.(Error_Status).(Errmsg) = msg ∧
    x.(Error_Status).(Result) = None ∧
    entries (x.(Error_Status).(Result)) h' = ∅ ∧
    x.(cause) = nil_error.
Proof.
  intros Hnil Has Hws.
  destruct err as [|p|msg gs next]; [done..|]. simpl in Has.
  destruct (status_FromError_foreign msg gs next h Has) as [s [Hs _]].
  rewrite Hws in Hs.
  rewrite bool_decide_eq_false_2 in Hs by (by intros [? ?]).
  eexists _, _, msg, _. split.
  { unfold FromError. cbn [errors_As]. rewrite Has.
    unfold mbind at 1. unfold M_bind at 1. rewrite Hs. cbn.
    run. by rewrite New_spec. }
  simpl. split; [done|].
  split; [apply fresh_errs|].
  split; [apply lookup_insert_eq|]. simpl.
  by repeat split.
Qed.

(** ** Outbound conversion *)

(** When [WithDetails] reports an error for a status made by
    [status.New]. *)
Lemma WithDetails_fails c msg md :
  (status.WithDetails packs (status.New c msg) md).2 = true ↔
  uint32 (int32 c) = codes.OK ∨ packs md = false.
Proof.
  unfold status.WithDetails, status.New, status.Code. simpl.
  destruct (decide (uint32 (int32 c) = codes.OK)) as [Hc|Hc]; simpl.
  - split; [by left|done].
  - destruct (packs md); simpl; split; try done.
    + by intros [?|?].
    + by right.
Qed.

(** [GRPCStatus] hands on the first result of [WithDetails]. *)
Lemma GRPCStatus_spec h l x :
  errs h !! l = Some x →
  GRPCStatus (Some l) h =
    Ret (status.WithDetails packs
           (status.New (ToGRPCCode (x.(Error_Status).(Errcode)))
                       (x.(Error_Status).(Errmsg)))
           (entries (x.(Error_Status).(Result)) h)).1 h.
Proof.
  intros Hl. unfold GRPCStatus. run.
  rewrite (load_allocated _ _ _ Hl). unfold read_map. run.
  by destruct (status.WithDetails _ _ _).
Qed.

(** With the detail attached, the status carries the mapped code, the
    message and the entries of the metadata. *)
Lemma GRPCStatus_attached h l x :
  errs h !! l = Some x →
  uint32 (int32 (ToGRPCCode (x.(Error_Status).(Errcode)))) ≠ codes.OK →
  packs (entries (x.(Error_Status).(Result)) h) = true →
  GRPCStatus (Some l) h =
    Ret (Some {| status.Code_ := int32 (ToGRPCCode (x.(Error_Status).(Errcode)));
                 status.Message_ := x.(Error_Status).(Errmsg);
                 status.Details_ :=
                   [status.AnyErrorInfo (entries (x.(Error_Status).(Result)) h)] |})
        h.
Proof.
  intros Hl Hc Hp. rewrite (GRPCStatus_spec _ _ _ Hl).
  unfold status.WithDetails, status.New, status.Code. simpl.
  rewrite decide_False by done. by rewrite Hp.
Qed.


(** ** The round trip *)


(** When the detail cannot be attached, nothing comes back from the
    round trip. *)
Lemma round_trip_attach_fails h l x :
  errs h !! l = Some x →
  (status.WithDetails packs
     (status.New (ToGRPCCode (x.(Error_Status).(Errcode)))
                 (x.(Error_Status).(Errmsg)))
     (entries (x.(Error_Status).(Result)) h)).2 = true →
  round_trip (Some l) h = Ret None h.
Proof.
  intros Hl Hfail. unfold round_trip. run.
  rewrite (GRPCStatus_spec _ _ _ Hl).
  replace (status.WithDetails _ _ _).1 with (@None status.Proto); [done|].
  revert Hfail.
  unfold status.WithDetails, status.New, status.Code. simpl.
  destruct (decide (uint32 _ = codes.OK)); [done|].
  by destruct (packs _).
Qed.


(** ** Totality *)

Lemma unpack_returns a h :
  ∃ d h', unpack a h = Ret d h' ∧ errs h' = errs h.
Proof.
  destruct a as [md|url]; simpl.
  - destruct (decide (md = ∅)).
    + by exists (ErrorInfo None), h.
    + unfold make_map. run.
      erewrite copy_entries_spec by (simpl; apply lookup_insert_eq).
      run. by eexists _, _.
  - by exists other_detail, h.
Qed.

Lemma status_Details_returns s h :
  ∃ ds h', status_Details s h = Ret ds h' ∧ errs h' = errs h.
Proof.
  unfold status_Details. destruct s as [p|]; [|by exists [], h].
  generalize (status.Details_ p). intros l. revert h.
  induction l as [|a l IH]; intros h; simpl.
  - by exists [], h.
  - unfold mbind at 1. unfold M_bind at 1.
    destruct (unpack_returns a h) as (d & h1 & -> & He1).
    unfold mbind at 1. unfold M_bind at 1.
    destruct (IH h1) as (ds & h2 & -> & He2).
    exists (d :: ds), h2. split; [done|]. congruence.
Qed.

(** [FromError] on a chain that holds no [*Error] makes a new
    [Error]. *)
Lemma FromError_foreign_returns err h :
  err ≠ nil_error →
  errors_As err = None →
  ∃ l h', FromError err h = Ret (Some l) h' ∧ is_Some (errs h' !! l).
Proof.
  intros Hnil Has. destruct err as [|p|msg gs next]; [done..|].
  simpl in Has.
  destruct (status_FromError_foreign msg gs next h Has) as [s [Hs _]].
  unfold FromError. cbn [errors_As]. rewrite Has.
  unfold mbind at 1. unfold M_bind at 1. rewrite Hs. cbn.
  destruct (bool_decide _); cbn.
  - run. rewrite New_spec.
    match goal with
    | |- context [status_Details ?s0 ?h0] =>
        destruct (status_Details_returns s0 h0) as (ds & h1 & -> & He)
    end.
    destruct (first_ErrorInfo ds) as [md|].
    + erewrite WithMetadata_spec
        by (rewrite He; simpl; apply lookup_insert_eq).
      eexists _, _. split; [done|]. simpl.
      rewrite lookup_insert_eq. eauto.
    + eexists _, _. split; [done|]. rewrite He. simpl.
      rewrite lookup_insert_eq. eauto.
  - run. rewrite New_spec. eexists _, _. split; [done|]. simpl.
    rewrite lookup_insert_eq. eauto.
Qed.

Lemma FromError_returns err h : returns (FromError err) h.
Proof.
  destruct (errors_As err) as [p|] eqn:Has.
  - exists p, h. destruct err as [|q|msg gs next]; [done| |].
    + simpl in Has. by injection Has as ->.
    + unfold FromError. by rewrite Has.
  - destruct err as [|q|msg gs next]; [by exists None, h|done|].
    destruct (FromError_foreign_returns (foreign msg gs next) h) as (l & h' & Hf & _);
      [done..|].
    by exists (Some l), h'.
Qed.

Lemma Code_returns err h : chain_ok h err → returns (Code err) h.
Proof.
  unfold chain_ok. intros Hok.
  destruct err as [|p|msg gs next]; [by exists 200, h| |].
  - simpl in Hok. destruct p as [l|]; [|done]. destruct Hok as [x Hx].
    exists (x.(Error_Status).(Errcode)), h. unfold Code. run.
    rewrite FromError_ptr. by rewrite (load_allocated _ _ _ Hx).
  - destruct (errors_As (foreign msg gs next)) as [p|] eqn:Has.
    + destruct p as [l|]; [|done]. destruct Hok as [x Hx].
      exists (x.(Error_Status).(Errcode)), h. unfold Code. run.
      unfold FromError. rewrite Has. cbn.
      by rewrite (load_allocated _ _ _ Hx).
    + destruct (FromError_foreign_returns (foreign msg gs next) h)
        as (l & h' & Hf & [x Hx]); [done..|].
      exists (x.(Error_Status).(Errcode)), h'. unfold Code. run.
      rewrite Hf. by rewrite (load_allocated _ _ _ Hx).
Qed.

Lemma Is_returns l x err h :
  errs h !! l = Some x → chain_ok h err → returns (Is (Some l) err) h.
Proof.
  unfold chain_ok, Is. intros Hl Hok.
  destruct (errors_As err) as [[k|]|]; [|done|by exists false, h].
  destruct Hok as [y Hy]. eexists _, h. run.
  rewrite (load_allocated _ _ _ Hy). by rewrite (load_allocated _ _ _ Hl).
Qed.

(** C3, amended. Every public operation returns a value, with these
    provisos: the methods of [Error] need a receiver that is not nil,
    and [Code] and [Is] need the first [*Error] on the chain of their
    argument, if there is one, not to be nil.  [Clone], [FromError] and
    [Code] return on a nil argument. *)
Theorem operations_total h :
  (∀ code message, returns (New code message) h) ∧
  (∀ code format a, returns (Newf code format a) h) ∧
  (∀ code format a, returns (Errorf code format a) h) ∧
  returns (Clone None) h ∧
  (∀ err, returns (FromError err) h) ∧
  returns (Code nil_error) h ∧
  (∀ err, chain_ok h err → returns (Code err) h) ∧
  (∀ e, allocated h e →
     returns (Clone e) h ∧
     returns (Error_Error e) h ∧
     returns (Unwrap e) h ∧
     (∀ err, chain_ok h err → returns (Is e err) h) ∧
     (∀ c, returns (WithCause e c) h) ∧
     (∀ md, returns (WithMetadata e md) h) ∧
     returns (GRPCStatus e) h).
Proof.
  split; [intros; eexists _, _; apply New_spec|].
  split; [intros; eexists _, _; apply New_spec|].
  split; [intros; eexists _, _; unfold Errorf; run; by rewrite New_spec|].
  split; [by exists None, h|].
  split; [intros err; apply FromError_returns|].
  split; [by exists 200, h|].
  split; [intros err; apply Code_returns|].
  intros [l|] Hal; [|done]. destruct Hal as [x Hx].
  split; [eexists _, _; by apply Clone_spec|].
  split.
  { eexists _, _. unfold Error_Error. run.
    by rewrite (load_allocated _ _ _ Hx). }
  split.
  { eexists _, _. unfold Unwrap. run.
    by rewrite (load_allocated _ _ _ Hx). }
  split; [intros err; by apply Is_returns with x|].
  split; [intros c; eexists _, _; by apply WithCause_spec|].
  split; [intros md; eexists _, _; by apply WithMetadata_spec|].
  eexists _, _. by apply GRPCStatus_spec.
Qed.

(** ** The store only grows *)

Lemma extends_refl h : extends h h.
Proof. by split. Qed.

Lemma extends_trans h1 h2 h3 : extends h1 h2 → extends h2 h3 → extends h1 h3.
Proof. intros [? ?] [? ?]. split; by etrans. Qed.

Lemma extends_fresh h y m :
  extends h {| errs := <[fresh (dom (errs h)) := y]> (errs h);
               maps := <[fresh (dom (maps h)) := m]> (maps h) |}.
Proof.
  split; simpl; apply insert_subseteq; [apply fresh_errs|apply fresh_maps].
Qed.

Lemma extends_fresh_err h y :
  extends h {| errs := <[fresh (dom (errs h)) := y]> (errs h);
               maps := maps h |}.
Proof. split; simpl; [apply insert_subseteq, fresh_errs|done]. Qed.

Lemma extends_fresh_map h m :
  extends h {| errs := errs h;
               maps := <[fresh (dom (maps h)) := m]> (maps h) |}.
Proof. split; simpl; [done|apply insert_subseteq, fresh_maps]. Qed.

Lemma extends_lookup h h' l x :
  extends h h' → errs h !! l = Some x → errs h' !! l = Some x.
Proof. intros [Hsub _] Hl. by apply (lookup_weaken _ _ _ _ Hl Hsub). Qed.

(** A mapping of the store reads the same in a store that extends it. *)
Lemma entries_extends h h' m :
  valid_map h m → extends h h' → entries m h' = entries m h.
Proof.
  intros Hv [_ Hsub]. destruct m as [k|]; [|done].
  destruct (Hv k eq_refl) as [m0 Hm0]. simpl.
  by rewrite Hm0, (lookup_weaken _ _ _ _ Hm0 Hsub).
Qed.

Lemma valid_map_extends h h' m :
  valid_map h m → extends h h' → valid_map h' m.
Proof.
  intros Hv [_ Hsub] k Hk. destruct (Hv k Hk) as [m0 Hm0].
  exists m0. by apply (lookup_weaken _ _ _ _ Hm0 Hsub).
Qed.

(** Unpacking a detail adds to the store; an [ErrorInfo] comes out with
    a mapping that holds the packed entries. *)
Lemma unpack_spec a h :
  ∃ d h',
    unpack a h = Ret d h' ∧ errs h' = errs h ∧ extends h h' ∧
    match a, d with
    | status.AnyErrorInfo md, ErrorInfo m => entries m h' = md ∧ valid_map h' m
    | status.AnyOther _, other_detail => True
    | _, _ => False
    end.
Proof.
  destruct a as [md|url]; simpl.
  - destruct (decide (md = ∅)) as [->|Hne].
    + exists (ErrorInfo None), h.
      split; [done|]. split; [done|]. split; [apply extends_refl|].
      split; [done|]. by intros k Hk.
    + unfold make_map. run.
      erewrite copy_entries_spec by (simpl; apply lookup_insert_eq).
      run. rewrite insert_insert_eq, (right_id_L ∅ (∪)).
      eexists (ErrorInfo (Some _)), _. split; [done|]. simpl.
      split; [done|]. split; [apply extends_fresh_map|].
      split; [by rewrite lookup_insert_eq|].
      intros k [= <-]. simpl. rewrite lookup_insert_eq. eauto.
  - exists other_detail, h.
    split; [done|]. split; [done|]. split; [apply extends_refl|done].
Qed.

(** [Details] unpacks every detail; the first [ErrorInfo] of the result
    holds the entries of the first packed one. *)
Lemma status_Details_spec p h :
  ∃ ds h',
    status_Details (Some p) h = Ret ds h' ∧ errs h' = errs h ∧ extends h h' ∧
    match first_AnyErrorInfo (status.Details_ p) with
    | Some md =>
        ∃ m, first_ErrorInfo ds = Some m ∧ entries m h' = md ∧ valid_map h' m
    | None => first_ErrorInfo ds = None
    end.
Proof.
  unfold status_Details. generalize (status.Details_ p). intros l. revert h.
  induction l as [|a l IH]; intros h.
  - exists [], h.
    split; [done|]. split; [done|]. split; [apply extends_refl|done].
  - cbn [foldr]. unfold mbind at 1. unfold M_bind at 1.
    destruct (unpack_spec a h) as (d & h1 & -> & He1 & Hx1 & Hd).
    unfold mbind at 1. unfold M_bind at 1.
    destruct (IH h1) as (ds & h2 & -> & He2 & Hx2 & Hds).
    exists (d :: ds), h2. split; [done|]. split; [congruence|].
    split; [by eapply extends_trans|].
    destruct a as [md|url], d as [m|]; try done; simpl.
    destruct Hd as [Hent Hval]. exists m. split; [done|].
    split; [by rewrite (entries_extends h1)|by eapply valid_map_extends].
Qed.

(** ** Inbound conversion of a status error *)

(** [FromError] on the error of a status that is not OK. *)
Lemma FromError_status_spec p h :
  status.Code (Some p) ≠ codes.OK →
  ∃ l y h',
    FromError (status_Err (Some p)) h = Ret (Some l) h' ∧
    errs h !! l = None ∧
    errs h' !! l = Some y ∧
    extends h h' ∧
    y.(Error_Status).(Errcode) = int32 (FromGRPCCode (status.Code (Some p))) ∧
    y.(Error_Status).(Errmsg) = status.Message_ p ∧
    y.(cause) = nil_error ∧
    valid_map h' (y.(Error_Status).(Result)) ∧
    entries (y.(Error_Status).(Result)) h'
      = default ∅ (first_AnyErrorInfo (status.Details_ p)) ∧
    (first_AnyErrorInfo (status.Details_ p) = None →
     y.(Error_Status).(Result) = None).
Proof.
  intros Hok. unfold status_Err. rewrite decide_False by done.
  unfold FromError. cbn [errors_As].
  unfold status_FromError. cbn. run. rewrite New_spec.
  match goal with
  | |- context [status_Details (Some p) ?h0] =>
      destruct (status_Details_spec p h0) as (ds & h1 & -> & He & Hx & Hds)
  end.
  simpl in He.
  destruct (first_AnyErrorInfo (status.Details_ p)) as [md|].
  - destruct Hds as (m & -> & Hent & Hval).
    erewrite WithMetadata_spec by (rewrite He; apply lookup_insert_eq).
    eexists _, _, _. split; [done|]. simpl.
    split.
    { rewrite He. apply eq_None_not_Some. intros Hin.
      pose proof (fresh_errs {| errs := <[fresh (dom (errs h)) :=
        {| Error_Status := {| Errcode := int32 (FromGRPCCode (status.Code (Some p)));
                              Errmsg := status.Message_ p; Result := None |};
           cause := nil_error |}]> (errs h); maps := maps h |}) as Hf.
      simpl in Hf. destruct Hin as [z Hz].
      assert (Hne : fresh (dom (errs h)) ≠
                    fresh (dom (<[fresh (dom (errs h)) :=
        {| Error_Status := {| Errcode := int32 (FromGRPCCode (status.Code (Some p)));
                              Errmsg := status.Message_ p; Result := None |};
           cause := nil_error |}]> (errs h)))).
      { intros Heq. symmetry in Heq. by apply fresh_insert_ne in Heq. }
      rewrite lookup_insert_ne in Hf by done. congruence. }
    split; [apply lookup_insert_eq|]. simpl.
    split.
    { eapply extends_trans; [apply extends_fresh_err|].
      eapply extends_trans; [apply Hx|]. apply extends_fresh. }
    split; [done|]. split; [done|]. split; [done|].
    split.
    { eapply valid_map_extends; [apply Hval|]. apply extends_fresh. }
    split; [|done].
    rewrite entries_insert_fresh by apply Hval. done.
  - rewrite Hds. eexists _, _, _. split; [done|].
    split; [apply fresh_errs|].
    split; [rewrite He; apply lookup_insert_eq|]. simpl.
    split; [eapply extends_trans; [apply extends_fresh_err|apply Hx]|].
    split; [done|]. split; [done|]. split; [done|].
    split; [by intros k Hk|]. done.
Qed.

Lemma fresh_extends h h' :
  extends h h' → errs h !! fresh (dom (errs h')) = None.
Proof.
  intros [Hsub _]. destruct (errs h !! fresh (dom (errs h'))) eqn:E; [|done].
  apply (lookup_weaken _ _ _ _ E) in Hsub. by rewrite fresh_errs in Hsub.
Qed.

Lemma fresh_ne_allocated h l x : errs h !! l = Some x → fresh (dom (errs h)) ≠ l.
Proof. intros Hl Heq. rewrite <- Heq, fresh_errs in Hl. done. Qed.

Lemma fresh_ne_mapping h k m : maps h !! k = Some m → fresh (dom (maps h)) ≠ k.
Proof. intros Hk Heq. rewrite <- Heq, fresh_maps in Hk. done. Qed.

(** ** Metadata: adoption and copies *)

(** X1. [WithMetadata] on an [Error] [x] at [l] returns a new object
    with the code, message and cause of [x] whose metadata is the map
    value [md] itself, not a copy: what the caller later assigns through
    [md] shows in the error.  The object at [l] and its metadata are as
    before. *)
Theorem WithMetadata_adopts h l x md :
  errs h !! l = Some x →
  ∃ l' y h',
    WithMetadata (Some l) md h = Ret (Some l') h' ∧
    errs h !! l' = None ∧
    errs h' !! l' = Some y ∧
    y.(Error_Status).(Errcode) = x.(Error_Status).(Errcode) ∧
    y.(Error_Status).(Errmsg) = x.(Error_Status).(Errmsg) ∧
    y.(cause) = x.(cause) ∧
    y.(Error_Status).(Result) = md ∧
    errs h' !! l = Some x ∧
    entries (x.(Error_Status).(Result)) h'
      = entries (x.(Error_Status).(Result)) h ∧
    (∀ k key v,
       md = Some k →
       entries (y.(Error_Status).(Result)) (map_assign k key v h') !! key
       = Some v).
Proof.
  intros Hl.
  eexists _, _, _. split; [by apply WithMetadata_spec|]. simpl.
  split; [apply fresh_errs|].
  split; [apply lookup_insert_eq|]. simpl.
  split; [done|]. split; [done|]. split; [done|]. split; [done|].
  split; [rewrite lookup_insert_ne; [done|by eapply fresh_ne_allocated]|].
  split.
  - destruct (x.(Error_Status).(Result)) as [k|]; [|done]. simpl.
    destruct (decide (k = fresh (dom (maps h)))) as [->|Hk].
    + by rewrite lookup_insert_eq.
    + by rewrite lookup_insert_ne.
  - intros k key v ->. simpl. rewrite lookup_insert_eq. simpl.
    apply lookup_insert_eq.
Qed.

(** X2. The metadata of a clone is apart from that of the original:
    an assignment through either mapping does not show in the other. *)
Theorem Clone_independent h l x k :
  errs h !! l = Some x →
  x.(Error_Status).(Result) = Some k →
  is_Some (maps h !! k) →
  ∃ l' lm y h',
    Clone (Some l) h = Ret (Some l') h' ∧
    errs h' !! l' = Some y ∧
    y.(Error_Status).(Result) = Some lm ∧
    lm ≠ k ∧
    entries (Some lm) h' = entries (Some k) h ∧
    (∀ key v, entries (Some lm) (map_assign k key v h') = entries (Some k) h) ∧
    (∀ key v, entries (Some k) (map_assign lm key v h') = entries (Some k) h).
Proof.
  intros Hl Hres [m0 Hk].
  assert (fresh (dom (maps h)) ≠ k) as Hne by by eapply fresh_ne_mapping.
  eexists _, _, _, _. split; [by apply Clone_spec|]. simpl.
  split; [apply lookup_insert_eq|]. simpl.
  split; [done|]. split; [done|].
  rewrite Hres. simpl. rewrite Hk. simpl.
  split; [by rewrite lookup_insert_eq|].
  split; intros key v.
  - rewrite lookup_insert_ne by done. by rewrite lookup_insert_eq.
  - rewrite lookup_insert_ne by done.
    rewrite lookup_insert_ne by done. by rewrite Hk.
Qed.

(** X3. A copy made after the adoption no longer shares the mapping:
    [WithCause] on the result of [WithMetadata(e, md)] holds a new
    mapping with the entries that [md] had then, and later assignments
    through [md] do not show in it. *)
Theorem WithCause_unshares h l x k c :
  errs h !! l = Some x →
  is_Some (maps h !! k) →
  ∃ l2 lm y h2,
    (e1 ← WithMetadata (Some l) (Some k); WithCause e1 c) h
      = Ret (Some l2) h2 ∧
    errs h2 !! l2 = Some y ∧
    y.(cause) = c ∧
    y.(Error_Status).(Result) = Some lm ∧
    lm ≠ k ∧
    maps h !! lm = None ∧
    entries (Some lm) h2 = entries (Some k) h ∧
    (∀ key v, entries (Some lm) (map_assign k key v h2) = entries (Some k) h).
Proof.
  intros Hl [m0 Hk].
  unfold mbind at 1. unfold M_bind at 1.
  rewrite (WithMetadata_spec _ _ _ _ Hl).
  erewrite WithCause_spec by (simpl; apply lookup_insert_eq).
  eexists _, _, _, _. split; [done|]. simpl.
  split; [apply lookup_insert_eq|]. simpl.
  split; [done|]. split; [done|].
  set (M1 := <[fresh (dom (maps h)) := entries (x.(Error_Status).(Result)) h]>
               (maps h)).
  assert (M1 !! k = Some m0) as Hk1.
  { unfold M1. rewrite lookup_insert_ne; [done|by eapply fresh_ne_mapping]. }
  assert (M1 !! fresh (dom M1) = None) as Hf
    by apply not_elem_of_dom, is_fresh.
  assert (fresh (dom M1) ≠ k) as Hne by (intros Heq; congruence).
  split; [done|].
  split.
  { pose proof Hf as Hf'. unfold M1 in Hf'.
    apply lookup_insert_None in Hf' as [Hf' _]. exact Hf'. }
  rewrite lookup_insert_eq, Hk1, Hk. simpl.
  split; [done|]. intros key v.
  rewrite lookup_insert_ne by done. by rewrite lookup_insert_eq.
Qed.

(** ** The string form *)

Lemma Error_Error_spec h l x :
  errs h !! l = Some x →
  Error_Error (Some l) h =
    Ret ("errcode: code = " +:+ pretty (x.(Error_Status).(Errcode)) +:+
         " errmsg = " +:+ x.(Error_Status).(Errmsg) +:+
         " result = " +:+ fmt_map (entries (x.(Error_Status).(Result)) h) +:+
         " cause = %!v(MISSING)") h.
Proof.
  intros Hl. unfold Error_Error. run.
  by rewrite (load_allocated _ _ _ Hl).
Qed.

(** X4. The string form of an [Error] does not show its cause: the
    result of [WithCause], whatever the cause, and a clone have the
    string of the original. *)
Theorem Error_ignores_cause h l x c :
  errs h !! l = Some x →
  ∃ s l1 h1 l2 h2,
    Error_Error (Some l) h = Ret s h ∧
    WithCause (Some l) c h = Ret (Some l1) h1 ∧
    Unwrap (Some l1) h1 = Ret c h1 ∧
    Error_Error (Some l1) h1 = Ret s h1 ∧
    Clone (Some l) h = Ret (Some l2) h2 ∧
    Error_Error (Some l2) h2 = Ret s h2.
Proof.
  intros Hl. eexists _, _, _, _, _.
  split; [by apply Error_Error_spec|].
  split; [by apply WithCause_spec|].
  split.
  { unfold Unwrap. run.
    by erewrite load_allocated by (simpl; apply lookup_insert_eq). }
  split.
  { erewrite Error_Error_spec by (simpl; apply lookup_insert_eq).
    simpl. by rewrite lookup_insert_eq. }
  split; [by apply Clone_spec|].
  erewrite Error_Error_spec by (simpl; apply lookup_insert_eq).
  simpl. by rewrite lookup_insert_eq.
Qed.

(** ** Matching and inspection through a chain *)

(** X5. [Is] looks at the first [*Error] on the chain of its argument
    and at nothing behind it: with none on the chain (the nil error
    too) it returns false, for any receiver; with one, it compares that
    object's code with the receiver's; when that first [*Error] is a nil
    pointer, it panics. *)
Theorem Is_first_on_chain h e err :
  (errors_As err = None → Is e err h = Ret false h) ∧
  (∀ l1 x1 l2 x2,
     e = Some l1 →
     errs h !! l1 = Some x1 →
     errors_As err = Some (Some l2) →
     errs h !! l2 = Some x2 →
     Is e err h
     = Ret (bool_decide (x2.(Error_Status).(Errcode)
                         = x1.(Error_Status).(Errcode))) h) ∧
  (errors_As err = Some None → Is e err h = Panic).
Proof.
  unfold Is. split; [by intros ->|]. split.
  - intros l1 x1 l2 x2 -> H1 -> H2. run.
    by rewrite (load_allocated _ _ _ H2), (load_allocated _ _ _ H1).
  - by intros ->.
Qed.

(** X6. A copy matches its original, both ways: the results of
    [WithCause], [WithMetadata] and [Clone] on an [Error] and that
    [Error] satisfy [Is]. *)
Theorem Is_copies_match h l x c md :
  errs h !! l = Some x →
  (∃ l' h', WithCause (Some l) c h = Ret (Some l') h' ∧
            Is (Some l) (ptr_Error (Some l')) h' = Ret true h' ∧
            Is (Some l') (ptr_Error (Some l)) h' = Ret true h') ∧
  (∃ l' h', WithMetadata (Some l) md h = Ret (Some l') h' ∧
            Is (Some l) (ptr_Error (Some l')) h' = Ret true h' ∧
            Is (Some l') (ptr_Error (Some l)) h' = Ret true h') ∧
  (∃ l' h', Clone (Some l) h = Ret (Some l') h' ∧
            Is (Some l) (ptr_Error (Some l')) h' = Ret true h' ∧
            Is (Some l') (ptr_Error (Some l)) h' = Ret true h').
Proof.
  intros Hl.
  assert (fresh (dom (errs h)) ≠ l) as Hne by by eapply fresh_ne_allocated.
  repeat split; eexists _, _;
    (split; [by (apply WithCause_spec || apply WithMetadata_spec
                 || apply Clone_spec)|]);
    split; unfold Is; cbn [errors_As]; run;
    repeat (first
      [ erewrite load_allocated by (simpl; apply lookup_insert_eq)
      | erewrite load_allocated
          by (simpl; rewrite lookup_insert_ne by done; exact Hl) ]);
    simpl; by rewrite bool_decide_eq_true_2.
Qed.

(** X7. [FromError] and [Code] see through wrappers: when the first
    [*Error] on the chain of [err] is the object [x] at [l], [FromError]
    returns [l] itself, with no copy and no change to the store, and
    [Code] returns the code of [x]. *)
Theorem Code_wrapped h err l x :
  errors_As err = Some (Some l) →
  errs h !! l = Some x →
  FromError err h = Ret (Some l) h ∧
  Code err h = Ret (x.(Error_Status).(Errcode)) h.
Proof.
  intros Has Hl.
  assert (FromError err h = Ret (Some l) h) as Hfrom.
  { unfold FromError. rewrite Has. by destruct err. }
  split; [done|].
  unfold Code. destruct err as [|p|msg gs next]; [done| |].
  - unfold mbind at 1. unfold M_bind at 1. rewrite Hfrom.
    run. by rewrite (load_allocated _ _ _ Hl).
  - unfold mbind at 1. unfold M_bind at 1. rewrite Hfrom.
    run. by rewrite (load_allocated _ _ _ Hl).
Qed.

(** [FromError] on a chain with no [*Error] and no wire status is [New]
    with the unknown code and the string of the error. *)
Lemma FromError_foreign_unknown msg gs next h :
  errors_As next = None →
  wire_status (foreign msg gs next) = None →
  FromError (foreign msg gs next) h = New UnknownCode msg h.
Proof.
  intros Has Hws.
  destruct (status_FromError_foreign msg gs next h Has) as [s [Hs _]].
  rewrite Hws in Hs.
  rewrite bool_decide_eq_false_2 in Hs by (by intros [? ?]).
  unfold FromError. cbn [errors_As]. rewrite Has.
  unfold mbind at 1. unfold M_bind at 1. rewrite Hs. by cbn.
Qed.

(** X8. [Code] of an error that neither holds an [*Error] on its chain
    nor carries a wire status is 500, and the call only adds to the
    store. *)
Theorem Code_opaque h err :
  err ≠ nil_error →
  errors_As err = None →
  wire_status err = None →
  ∃ h', Code err h = Ret 500 h' ∧ extends h h'.
Proof.
  intros Hnil Has Hws. destruct err as [|p|msg gs next]; [done..|].
  simpl in Has. eexists. split.
  - unfold Code. unfold mbind at 1. unfold M_bind at 1.
    rewrite FromError_foreign_unknown by done. rewrite New_spec.
    run. by erewrite load_allocated by (simpl; apply lookup_insert_eq).
  - apply extends_fresh_err.
Qed.

(** ** Wire conversion, both ways *)

(** X9. [FromError] on the error of a status that is not OK makes a new
    [Error]: its code is [FromGRPCCode] of the status code (as stored
    in the [int32] field), its message that of the status, its metadata
    the entries of the first [ErrorInfo] detail (details of other kinds
    and later [ErrorInfo]s are passed over; nil metadata when there is
    none), and it has no cause.  [Code] returns that code. *)
Theorem FromError_status_error p h :
  status.Code (Some p) ≠ codes.OK →
  ∃ l y h',
    FromError (status_Err (Some p)) h = Ret (Some l) h' ∧
    errs h !! l = None ∧
    errs h' !! l = Some y ∧
    y.(Error_Status).(Errcode) = int32 (FromGRPCCode (status.Code (Some p))) ∧
    y.(Error_Status).(Errmsg) = status.Message_ p ∧
    y.(cause) = nil_error ∧
    entries (y.(Error_Status).(Result)) h'
      = default ∅ (first_AnyErrorInfo (status.Details_ p)) ∧
    (first_AnyErrorInfo (status.Details_ p) = None →
     y.(Error_Status).(Result) = None) ∧
    Code (status_Err (Some p)) h
      = Ret (int32 (FromGRPCCode (status.Code (Some p)))) h'.
Proof.
  intros Hok.
  destruct (FromError_status_spec p h Hok)
    as (l & y & h' & Hrun & Hnew & Hy & _ & Hc & Hm & Hcause & _ & Hent & Hnil).
  exists l, y, h'. repeat (split; [done|]).
  revert Hrun. unfold Code, status_Err. rewrite decide_False by done.
  intros Hrun. unfold mbind at 1. unfold M_bind at 1. rewrite Hrun.
  run. rewrite (load_allocated _ _ _ Hy). by rewrite Hc.
Qed.

(** X10. With the detail attached, [GRPCStatus] returns a status that
    carries the mapped code, the message and one detail, an [ErrorInfo]
    with the entries of the metadata; it leaves the store as it is, and
    the error of that status is not nil. *)
Theorem GRPCStatus_carries h l x :
  errs h !! l = Some x →
  0 <= ToGRPCCode (x.(Error_Status).(Errcode)) < 2 ^ 32 →
  ToGRPCCode (x.(Error_Status).(Errcode)) ≠ codes.OK →
  packs (entries (x.(Error_Status).(Result)) h) = true →
  ∃ p,
    GRPCStatus (Some l) h = Ret (Some p) h ∧
    status.Code (Some p) = ToGRPCCode (x.(Error_Status).(Errcode)) ∧
    status.Message (Some p) = x.(Error_Status).(Errmsg) ∧
    status.Details_ p
      = [status.AnyErrorInfo (entries (x.(Error_Status).(Result)) h)] ∧
    status_Err (Some p) ≠ nil_error.
Proof.
  intros Hl Hrange Hok Hpacks.
  pose proof (uint32_int32 _ Hrange) as Hc.
  eexists. split.
  { apply (GRPCStatus_attached h l x); [done| |done]. by rewrite Hc. }
  simpl. split; [done|]. split; [done|]. split; [done|].
  unfold status_Err. simpl. rewrite Hc. by rewrite decide_False.
Qed.

(** X11. The cause does not cross the wire: the round trip of an
    [Error] through [GRPCStatus] and [FromError] yields a new [Error]
    without a cause, whatever the cause of the original, with its
    message and the entries of its metadata; the original is as
    before. *)
Theorem round_trip_drops_cause h l x :
  errs h !! l = Some x →
  0 <= ToGRPCCode (x.(Error_Status).(Errcode)) < 2 ^ 32 →
  ToGRPCCode (x.(Error_Status).(Errcode)) ≠ codes.OK →
  packs (entries (x.(Error_Status).(Result)) h) = true →
  ∃ l' y h',
    round_trip (Some l) h = Ret (Some l') h' ∧
    l' ≠ l ∧
    errs h' !! l' = Some y ∧
    y.(cause) = nil_error ∧
    Unwrap (Some l') h' = Ret nil_error h' ∧
    y.(Error_Status).(Errmsg) = x.(Error_Status).(Errmsg) ∧
    entries (y.(Error_Status).(Result)) h'
      = entries (x.(Error_Status).(Result)) h ∧
    errs h' !! l = Some x.
Proof.
  intros Hl Hrange Hok Hpacks.
  pose proof (uint32_int32 _ Hrange) as Hc.
  unfold round_trip. unfold mbind at 1. unfold M_bind at 1.
  rewrite (GRPCStatus_attached h l x); [|done|by rewrite Hc|done].
  match goal with
  | |- context [status_Err (Some ?p0)] =>
      destruct (FromError_status_spec p0 h)
        as (l' & y & h' & Hrun & Hnew & Hy & Hx & _ & Hm & Hcause & _ & Hent & _)
  end.
  { simpl. by rewrite Hc. }
  exists l', y, h'. split; [done|].
  split; [intros ->; congruence|].
  split; [done|]. split; [done|].
  split.
  { unfold Unwrap. run. rewrite (load_allocated _ _ _ Hy). by rewrite Hcause. }
  split; [done|]. split; [done|].
  by eapply extends_lookup.
Qed.

(** X12. [Errorf] and [Newf] make the same [Error]: code [int32(code)],
    message the formatted string, no metadata, no cause.  The result of
    [Errorf] is a non-nil interface value that holds the pointer, and
    [Code] of it is that code. *)
Theorem Errorf_Newf h code format a :
  ∃ l y h',
    Newf code format a h = Ret (Some l) h' ∧
    Errorf code format a h = Ret (ptr_Error (Some l)) h' ∧
    ptr_Error (Some l) ≠ nil_error ∧
    errs h !! l = None ∧
    errs h' !! l = Some y ∧
    y = {| Error_Status := {| Errcode := int32 code;
                              Errmsg := Sprintf format a;
                              Result := None |};
           cause := nil_error |} ∧
    FromError (ptr_Error (Some l)) h' = Ret (Some l) h' ∧
    Code (ptr_Error (Some l)) h' = Ret (int32 code) h'.
Proof.
  eexists _, _, _. split; [apply New_spec|].
  split; [unfold Errorf; run; by rewrite New_spec|].
  split; [done|].
  split; [apply fresh_errs|]. simpl.
  split; [apply lookup_insert_eq|].
  split; [done|]. split; [done|].
  unfold Code. run. rewrite FromError_ptr.
  by erewrite load_allocated by (simpl; apply lookup_insert_eq).
Qed.

(** ** Nothing in the store is changed in place *)

Lemma load_same p h x h' : load p h = Ret x h' → h' = h.
Proof.
  unfold load. destruct p as [l|]; [|done].
  destruct (errs h !! l); [|done]. by intros [= _ ->].
Qed.

Lemma load_dangling h l : errs h !! l = None → load (Some l) h = Panic.
Proof. intros H. unfold load. by rewrite H. Qed.

Lemma Clone_extends e h p h' : Clone e h = Ret p h' → extends h h'.
Proof.
  destruct e as [l|]; [|intros [= _ <-]; apply extends_refl].
  destruct (errs h !! l) as [x|] eqn:Hl.
  - rewrite (Clone_spec _ _ _ Hl). intros [= _ <-]. apply extends_fresh.
  - unfold Clone. unfold mbind at 1. unfold M_bind at 1.
    by rewrite (load_dangling _ _ Hl).
Qed.

Lemma WithCause_extends e c h p h' : WithCause e c h = Ret p h' → extends h h'.
Proof.
  destruct e as [l|]; [|done].
  destruct (errs h !! l) as [x|] eqn:Hl.
  - rewrite (WithCause_spec _ _ _ _ Hl). intros [= _ <-]. apply extends_fresh.
  - unfold WithCause, Clone. do 2 (unfold mbind at 1; unfold M_bind at 1).
    by rewrite (load_dangling _ _ Hl).
Qed.

Lemma WithMetadata_extends e md h p h' :
  WithMetadata e md h = Ret p h' → extends h h'.
Proof.
  destruct e as [l|]; [|done].
  destruct (errs h !! l) as [x|] eqn:Hl.
  - rewrite (WithMetadata_spec _ _ _ _ Hl). intros [= _ <-]. apply extends_fresh.
  - unfold WithMetadata, Clone. do 2 (unfold mbind at 1; unfold M_bind at 1).
    by rewrite (load_dangling _ _ Hl).
Qed.

Lemma status_Details_extends s h ds h' :
  status_Details s h = Ret ds h' → errs h' = errs h ∧ extends h h'.
Proof.
  destruct s as [p|].
  - destruct (status_Details_spec p h) as (ds0 & h0 & -> & He & Hx & _).
    by intros [= _ <-].
  - intros [= _ <-]. split; [done|apply extends_refl].
Qed.

Lemma FromError_extends err h p h' : FromError err h = Ret p h' → extends h h'.
Proof.
  destruct (errors_As err) as [q|] eqn:Has.
  - assert (FromError err h = Ret q h) as ->.
    { unfold FromError. rewrite Has. by destruct err. }
    intros [= _ <-]. apply extends_refl.
  - destruct err as [|q|msg gs next]; [|done|].
    { intros [= _ <-]. apply extends_refl. }
    simpl in Has.
    destruct (status_FromError_foreign msg gs next h Has) as [s [Hs _]].
    unfold FromError. cbn [errors_As]. rewrite Has.
    unfold mbind at 1. unfold M_bind at 1. rewrite Hs. cbn.
    destruct (bool_decide _); cbn.
    + run. rewrite New_spec.
      match goal with
      | |- context [status_Details ?s0 ?h0] =>
          destruct (status_Details s0 h0) as [ds h1|] eqn:Hds; [|done];
          apply status_Details_extends in Hds as [He Hx]
      end.
      simpl in He.
      assert (extends h h1) as Hh1
        by (eapply extends_trans; [apply extends_fresh_err|done]).
      destruct (first_ErrorInfo ds) as [md|].
      * intros Hw. apply WithMetadata_extends in Hw.
        by eapply extends_trans.
      * by intros [= _ <-].
    + run. rewrite New_spec. intros [= _ <-]. apply extends_fresh_err.
Qed.

(** X13. No operation changes or removes an object or a mapping that is
    in the store: [New], [Newf], [Errorf], [Clone], [WithCause],
    [WithMetadata], [FromError] and [Code] only add to it, and
    [GRPCStatus], [Is], [Unwrap] and [Error] leave it as it is.  So an
    [Error] reads the same after any of them. *)
Theorem store_only_grows h h' :
  (∀ code message p, New code message h = Ret p h' → extends h h') ∧
  (∀ code format a p, Newf code format a h = Ret p h' → extends h h') ∧
  (∀ code format a e, Errorf code format a h = Ret e h' → extends h h') ∧
  (∀ e p, Clone e h = Ret p h' → extends h h') ∧
  (∀ e c p, WithCause e c h = Ret p h' → extends h h') ∧
  (∀ e md p, WithMetadata e md h = Ret p h' → extends h h') ∧
  (∀ err p, FromError err h = Ret p h' → extends h h') ∧
  (∀ err n, Code err h = Ret n h' → extends h h') ∧
  (∀ e s, GRPCStatus e h = Ret s h' → h' = h) ∧
  (∀ e err b, Is e err h = Ret b h' → h' = h) ∧
  (∀ e c, Unwrap e h = Ret c h' → h' = h) ∧
  (∀ e s, Error_Error e h = Ret s h' → h' = h) ∧
  (extends h h' →
   ∀ l x, errs h !! l = Some x →
          errs h' !! l = Some x ∧
          (valid_map h (x.(Error_Status).(Result)) →
           entries (x.(Error_Status).(Result)) h'
           = entries (x.(Error_Status).(Result)) h)).
Proof.
  split; [intros code message p; rewrite New_spec; intros [= _ <-];
          apply extends_fresh_err|].
  split; [intros code format a p; unfold Newf; rewrite New_spec;
          intros [= _ <-]; apply extends_fresh_err|].
  split; [intros code format a e; unfold Errorf; run; rewrite New_spec;
          intros [= _ <-]; apply extends_fresh_err|].
  split; [intros e p; apply Clone_extends|].
  split; [intros e c p; apply WithCause_extends|].
  split; [intros e md p; apply WithMetadata_extends|].
  split; [intros err p; apply FromError_extends|].
  split.
  { intros err n. unfold Code. destruct err as [|q|msg gs next].
    - intros [= _ <-]. apply extends_refl.
    - unfold mbind at 1. unfold M_bind at 1. rewrite FromError_ptr.
      unfold mbind at 1. unfold M_bind at 1.
      destruct (load q h) as [x h1|] eqn:Hq; [|done].
      apply load_same in Hq as ->. intros [= _ <-]. apply extends_refl.
    - unfold mbind at 1. unfold M_bind at 1.
      destruct (FromError _ h) as [q h1|] eqn:Hf; [|done].
      apply FromError_extends in Hf.
      unfold mbind at 1. unfold M_bind at 1.
      destruct (load q h1) as [x h2|] eqn:Hq; [|done].
      apply load_same in Hq as ->. by intros [= _ <-]. }
  split.
  { intros e s. unfold GRPCStatus. unfold mbind at 1. unfold M_bind at 1.
    destruct (load e h) as [x h1|] eqn:Hq; [|done].
    apply load_same in Hq as ->. unfold read_map. run.
    destruct (status.WithDetails _ _ _). by intros [= _ <-]. }
  split.
  { intros e err b. unfold Is. destruct (errors_As err) as [se|].
    - unfold mbind at 1. unfold M_bind at 1.
      destruct (load se h) as [x h1|] eqn:Hq; [|done].
      apply load_same in Hq as ->.
      unfold mbind at 1. unfold M_bind at 1.
      destruct (load e h) as [y h1|] eqn:Hq; [|done].
      apply load_same in Hq as ->. by intros [= _ <-].
    - by intros [= _ <-]. }
  split.
  { intros e c. unfold Unwrap. unfold mbind at 1. unfold M_bind at 1.
    destruct (load e h) as [x h1|] eqn:Hq; [|done].
    apply load_same in Hq as ->. by intros [= _ <-]. }
  split.
  { intros e s. unfold Error_Error. unfold mbind at 1. unfold M_bind at 1.
    destruct (load e h) as [x h1|] eqn:Hq; [|done].
    apply load_same in Hq as ->. unfold read_map. run. by intros [= _ <-]. }
  intros Hx l x Hl. split; [by eapply extends_lookup|].
  intros Hv. by apply entries_extends.
Qed.

(** X14. [FromError] returns nil in two cases only: for the nil error,
    and for an error whose first [*Error] on the chain is a nil pointer.
    In the second case the argument is not nil, and [Code] of it
    panics. *)
Theorem FromError_nil_iff err h :
  ((∃ h', FromError err h = Ret None h') ↔
   err = nil_error ∨ errors_As err = Some None) ∧
  (errors_As err = Some None →
   err ≠ nil_error ∧ FromError err h = Ret None h ∧ Code err h = Panic).
Proof.
  assert (errors_As err = Some None →
          err ≠ nil_error ∧ FromError err h = Ret None h ∧ Code err h = Panic)
    as Htyped.
  { intros Has.
    assert (FromError err h = Ret None h) as Hfrom.
    { unfold FromError. rewrite Has. by destruct err. }
    split; [by intros ->|]. split; [done|].
    unfold Code. destruct err as [|p|msg gs next]; [done| |];
      unfold mbind at 1; unfold M_bind at 1; by rewrite Hfrom. }
  split; [|done]. split.
  - intros [h' Hrun].
    destruct (errors_As err) as [[l|]|] eqn:Has.
    + assert (FromError err h = Ret (Some l) h) as Hfrom.
      { unfold FromError. rewrite Has. by destruct err. }
      congruence.
    + by right.
    + destruct err as [|p|msg gs next]; [by left|done|].
      destruct (FromError_foreign_returns (foreign msg gs next) h)
        as (l & h1 & Hf & _); [done..|].
      congruence.
  - intros [->|Has]; [by exists h|].
    exists h. by apply Htyped.
Qed.

End serrors.

(** ** The program at work: the kratos code mapper, a packer that takes
    every mapping *)


(** The scenario of the specification: [New(404, "not found")], one
    entry of metadata, over the wire and back. *)
Example scenario_404 :
  ∃ h' y,
    (p ← New 404 "not found";
     m ← map_literal {[ "resource" := "user/1" ]};
     e ← WithMetadata p m;
     round_trip tg fg pack_all e) empty_heap = Ret (Some 4%positive) h' ∧
    errs h' !! 4%positive = Some y ∧
    y.(Error_Status).(Errcode) = 404 ∧
    y.(Error_Status).(Errmsg) = "not found" ∧
    entries (y.(Error_Status).(Result)) h' = {[ "resource" := "user/1" ]}.
Proof. vm_compute. eexists _, _. repeat split. Qed.



(** A code beyond the range of [int32] does not come back: 2^31 reads
    as -2^31. *)
Lemma FromError_New_wraps :
  ∃ h' x,
    (p ← New (2 ^ 31) "big"; FromError tg fg pack_all (ptr_Error p))
      empty_heap = Ret (Some 1%positive) h' ∧
    errs h' !! 1%positive = Some x ∧
    x.(Error_Status).(Errcode) = - 2 ^ 31 ∧
    x.(Error_Status).(Errcode) ≠ 2 ^ 31.
Proof. vm_compute. eexists _, _. repeat split. discriminate. Qed.

Lemma FromError_New_witness :
  ∃ l x h',
    (p ← New 404 "not found"; FromError tg fg pack_all (ptr_Error p))
      empty_heap = Ret (Some l) h' ∧
    errs h' !! l = Some x ∧
    x.(Error_Status).(Errcode) = 404 ∧
    x.(Error_Status).(Errmsg) = "not found".
Proof.
  apply (FromError_New tg fg pack_all empty_heap 404 "not found").
  vm_compute. by split.
Defined.

(** A method called on a nil receiver panics, and so does [Code] on an
    interface value that holds a nil [*Error]. *)
Lemma nil_receiver_panics :
  WithCause None nil_error empty_heap = Panic ∧
  ¬ returns (WithCause None nil_error) empty_heap ∧
  WithMetadata None None empty_heap = Panic ∧
  Unwrap None empty_heap = Panic ∧
  Error_Error None empty_heap = Panic ∧
  GRPCStatus tg pack_all None empty_heap = Panic ∧
  Code tg fg pack_all (ptr_Error None) empty_heap = Panic.
Proof.
  repeat split; try reflexivity.
  intros (a & h' & Hrun). discriminate Hrun.
Qed.

Lemma operations_total_witness :
  returns (Code tg fg pack_all (foreign "wrap" None (ptr_Error (Some 1%positive))))
          sample_heap ∧
  returns (Is (Some 1%positive) (ptr_Error (Some 2%positive))) sample_heap ∧
  returns (WithCause (Some 1%positive) nil_error) sample_heap ∧
  returns (GRPCStatus tg pack_all (Some 2%positive)) sample_heap.
Proof.
  destruct (operations_total tg fg pack_all unit (λ f _, f) sample_heap)
    as (_ & _ & _ & _ & _ & _ & HCode & Hrecv).
  split.
  { apply HCode. exists sample_Error. reflexivity. }
  destruct (Hrecv (Some 1%positive)) as (_ & _ & _ & HIs & HWithCause & _).
  { exists sample_Error. reflexivity. }
  split.
  { apply HIs. exists sample_OK. reflexivity. }
  split; [apply HWithCause|].
  destruct (Hrecv (Some 2%positive)) as (_ & _ & _ & _ & _ & _ & HGRPC).
  { exists sample_OK. reflexivity. }
  exact HGRPC.
Defined.



Lemma Code_correct_witness :
  Code tg fg pack_all (ptr_Error (Some 1%positive)) sample_heap
  = Ret 404 sample_heap.
Proof.
  apply (proj2 (proj2 (Code_correct tg fg pack_all))
           (ptr_Error (Some 1%positive)) sample_heap 1%positive sample_heap
           sample_Error).
  - discriminate.
  - reflexivity.
  - reflexivity.
Defined.

Lemma FromError_opaque_witness :
  ∃ l x msg h',
    FromError tg fg pack_all
      (foreign "wrapped" None (foreign "boom" None nil_error)) empty_heap
    = Ret (Some l) h' ∧
    call_Error
      (foreign "wrapped" None (foreign "boom" None nil_error)) empty_heap
    = Ret msg empty_heap ∧
    errs empty_heap !! l = None ∧
    errs h' !! l = Some x ∧
    x.(Error_Status).(Errcode) = 500 ∧
    x.(Error_Status).(Errcode) = UnknownCode ∧
    x.(Error_Status).(Errmsg) = msg ∧
    x.(Error_Status).(Result) = None ∧
    entries (x.(Error_Status).(Result)) h' = ∅ ∧
    x.(cause) = nil_error.
Proof.
  apply (FromError_opaque tg fg pack_all).
  - discriminate.
  - reflexivity.
  - reflexivity.
Defined.

Lemma Is_code_only_witness :
  ∃ b, Is (Some 1%positive) (ptr_Error (Some 2%positive)) sample_heap
       = Ret b sample_heap ∧
       (b = true ↔ 404 = 200).
Proof.
  apply (proj1 Is_code_only sample_heap 1%positive 2%positive
           sample_Error sample_OK).
  - reflexivity.
  - reflexivity.
Defined.

Lemma Clone_correct_witness :
  ∃ l' lm h',
    Clone (Some 1%positive) sample_heap = Ret (Some l') h' ∧
    errs sample_heap !! l' = None ∧
    maps sample_heap !! lm = None ∧
    errs h' !! l' =
      Some {| Error_Status := {| Errcode := 404; Errmsg := "not found";
                                 Result := Some lm |};
              cause := foreign "boom" None nil_error |} ∧
    maps h' !! lm = Some (entries (Some 1%positive) sample_heap) ∧
    (∀ k, entries (Some lm) h' !! k
          = entries (Some 1%positive) sample_heap !! k) ∧
    (∀ j, j ≠ l' → errs h' !! j = errs sample_heap !! j) ∧
    (∀ j, j ≠ lm → maps h' !! j = maps sample_heap !! j).
Proof.
  apply (proj2 Clone_correct sample_heap 1%positive sample_Error).
  reflexivity.
Defined.

Lemma WithCause_correct_witness :
  ∃ l' y h',
    WithCause (Some 1%positive) (foreign "disk" None nil_error) sample_heap
    = Ret (Some l') h' ∧
    errs h' !! l' = Some y ∧
    y.(Error_Status).(Errcode) = 404 ∧
    y.(Error_Status).(Errmsg) = "not found" ∧
    entries (y.(Error_Status).(Result)) h'
      = entries (Some 1%positive) sample_heap ∧
    Unwrap (Some l') h' = Ret (foreign "disk" None nil_error) h' ∧
    l' ≠ 1%positive ∧
    errs h' !! 1%positive = Some sample_Error ∧
    entries (Some 1%positive) h' = entries (Some 1%positive) sample_heap.
Proof.
  apply (WithCause_correct sample_heap 1%positive sample_Error).
  reflexivity.
Defined.

(** ** The further properties at work *)

Lemma WithMetadata_adopts_witness :
  ∃ l' y h',
    WithMetadata (Some 2%positive) (Some 1%positive) sample_heap
      = Ret (Some l') h' ∧
    y.(Error_Status).(Result) = Some 1%positive ∧
    errs h' !! l' = Some y ∧
    errs h' !! 2%positive = Some sample_OK ∧
    entries (y.(Error_Status).(Result))
            (map_assign 1%positive "owner" "ops" h') !! "owner" = Some "ops".
Proof.
  destruct (WithMetadata_adopts sample_heap 2%positive sample_OK
              (Some 1%positive) eq_refl)
    as (l' & y & h' & Hrun & _ & Hy & _ & _ & _ & Hres & Hold & _ & Hshow).
  exists l', y, h'. split; [exact Hrun|]. split; [exact Hres|].
  split; [exact Hy|]. split; [exact Hold|].
  exact (Hshow 1%positive "owner" "ops" eq_refl).
Defined.

Lemma Clone_independent_witness :
  ∃ l' lm y h',
    Clone (Some 1%positive) sample_heap = Ret (Some l') h' ∧
    errs h' !! l' = Some y ∧
    y.(Error_Status).(Result) = Some lm ∧
    lm ≠ 1%positive ∧
    entries (Some lm) h' = entries (Some 1%positive) sample_heap ∧
    (∀ key v, entries (Some lm) (map_assign 1%positive key v h')
              = entries (Some 1%positive) sample_heap) ∧
    (∀ key v, entries (Some 1%positive) (map_assign lm key v h')
              = entries (Some 1%positive) sample_heap).
Proof.
  apply (Clone_independent sample_heap 1%positive sample_Error 1%positive).
  - reflexivity.
  - reflexivity.
  - exists {[ "resource" := "user/1" ]}. reflexivity.
Defined.

Lemma WithCause_unshares_witness :
  ∃ l2 lm y h2,
    (e1 ← WithMetadata (Some 2%positive) (Some 1%positive);
     WithCause e1 (foreign "disk" None nil_error)) sample_heap
      = Ret (Some l2) h2 ∧
    errs h2 !! l2 = Some y ∧
    y.(cause) = foreign "disk" None nil_error ∧
    y.(Error_Status).(Result) = Some lm ∧
    lm ≠ 1%positive ∧
    maps sample_heap !! lm = None ∧
    entries (Some lm) h2 = entries (Some 1%positive) sample_heap ∧
    (∀ key v, entries (Some lm) (map_assign 1%positive key v h2)
              = entries (Some 1%positive) sample_heap).
Proof.
  apply (WithCause_unshares sample_heap 2%positive sample_OK 1%positive).
  - reflexivity.
  - exists {[ "resource" := "user/1" ]}. reflexivity.
Defined.

Lemma Error_ignores_cause_witness :
  ∃ s l1 h1 l2 h2,
    Error_Error (Some 2%positive) sample_heap = Ret s sample_heap ∧
    WithCause (Some 2%positive) (foreign "disk" None nil_error) sample_heap
      = Ret (Some l1) h1 ∧
    Unwrap (Some l1) h1 = Ret (foreign "disk" None nil_error) h1 ∧
    Error_Error (Some l1) h1 = Ret s h1 ∧
    Clone (Some 2%positive) sample_heap = Ret (Some l2) h2 ∧
    Error_Error (Some l2) h2 = Ret s h2.
Proof.
  apply (Error_ignores_cause sample_heap 2%positive sample_OK).
  reflexivity.
Defined.

Lemma Is_first_on_chain_witness :
  Is (Some 1%positive) (foreign "wrap" None (ptr_Error (Some 2%positive)))
     sample_heap = Ret false sample_heap ∧
  Is None (foreign "boom" None nil_error) sample_heap = Ret false sample_heap ∧
  Is (Some 1%positive) (foreign "wrap" None (ptr_Error None)) sample_heap
    = Panic.
Proof.
  split; [|split].
  - apply (proj1 (proj2 (Is_first_on_chain sample_heap (Some 1%positive)
                           (foreign "wrap" None (ptr_Error (Some 2%positive)))))
             1%positive sample_Error 2%positive sample_OK);
      reflexivity.
  - apply (proj1 (Is_first_on_chain sample_heap None
                    (foreign "boom" None nil_error))).
    reflexivity.
  - apply (proj2 (proj2 (Is_first_on_chain sample_heap (Some 1%positive)
                           (foreign "wrap" None (ptr_Error None))))).
    reflexivity.
Defined.

Lemma Is_copies_match_witness :
  ∃ l' h',
    WithCause (Some 1%positive) nil_error sample_heap = Ret (Some l') h' ∧
    Is (Some 1%positive) (ptr_Error (Some l')) h' = Ret true h' ∧
    Is (Some l') (ptr_Error (Some 1%positive)) h' = Ret true h'.
Proof.
  apply (proj1 (Is_copies_match sample_heap 1%positive sample_Error
                  nil_error None eq_refl)).
Defined.

Lemma Code_wrapped_witness :
  FromError tg fg pack_all
    (foreign "outer" None (foreign "inner" None (ptr_Error (Some 1%positive))))
    sample_heap = Ret (Some 1%positive) sample_heap ∧
  Code tg fg pack_all
    (foreign "outer" None (foreign "inner" None (ptr_Error (Some 1%positive))))
    sample_heap = Ret 404 sample_heap.
Proof.
  apply (Code_wrapped tg fg pack_all sample_heap
           (foreign "outer" None
              (foreign "inner" None (ptr_Error (Some 1%positive))))
           1%positive sample_Error).
  - reflexivity.
  - reflexivity.
Defined.

Lemma Code_opaque_witness :
  ∃ h', Code tg fg pack_all (foreign "boom" None nil_error) sample_heap
        = Ret 500 h' ∧
        extends sample_heap h'.
Proof.
  apply (Code_opaque tg fg pack_all sample_heap (foreign "boom" None nil_error)).
  - discriminate.
  - reflexivity.
  - reflexivity.
Defined.

Lemma FromError_status_error_witness :
  ∃ l y h',
    FromError tg fg pack_all
      (status_Err
         (Some {| status.Code_ := 5; status.Message_ := "not found";
                  status.Details_ :=
                    [status.AnyOther "type.googleapis.com/google.rpc.Help";
                     status.AnyErrorInfo {[ "a" := "1" ]};
                     status.AnyErrorInfo {[ "b" := "2" ]}] |})) empty_heap
      = Ret (Some l) h' ∧
    errs h' !! l = Some y ∧
    y.(Error_Status).(Errcode) = 404 ∧
    y.(Error_Status).(Errmsg) = "not found" ∧
    y.(cause) = nil_error ∧
    entries (y.(Error_Status).(Result)) h' = {[ "a" := "1" ]}.
Proof.
  destruct (FromError_status_error tg fg pack_all
              {| status.Code_ := 5; status.Message_ := "not found";
                 status.Details_ :=
                   [status.AnyOther "type.googleapis.com/google.rpc.Help";
                    status.AnyErrorInfo {[ "a" := "1" ]};
                    status.AnyErrorInfo {[ "b" := "2" ]}] |} empty_heap)
    as (l & y & h' & Hrun & _ & Hy & Hc & Hm & Hcause & Hent & _).
  { by vm_compute. }
  exists l, y, h'. split; [exact Hrun|]. split; [exact Hy|].
  split; [exact Hc|]. split; [exact Hm|]. split; [exact Hcause|exact Hent].
Defined.

Lemma GRPCStatus_carries_witness :
  ∃ p,
    GRPCStatus tg pack_all (Some 1%positive) sample_heap
      = Ret (Some p) sample_heap ∧
    status.Code (Some p) = codes.NotFound ∧
    status.Message (Some p) = "not found" ∧
    status.Details_ p = [status.AnyErrorInfo {[ "resource" := "user/1" ]}] ∧
    status_Err (Some p) ≠ nil_error.
Proof.
  apply (GRPCStatus_carries tg pack_all sample_heap 1%positive sample_Error).
  - reflexivity.
  - vm_compute. by split.
  - by vm_compute.
  - reflexivity.
Defined.

Lemma round_trip_drops_cause_witness :
  ∃ l' y h',
    round_trip tg fg pack_all (Some 1%positive) sample_heap
      = Ret (Some l') h' ∧
    l' ≠ 1%positive ∧
    errs h' !! l' = Some y ∧
    y.(cause) = nil_error ∧
    Unwrap (Some l') h' = Ret nil_error h' ∧
    y.(Error_Status).(Errmsg) = "not found" ∧
    entries (y.(Error_Status).(Result)) h'
      = entries (Some 1%positive) sample_heap ∧
    errs h' !! 1%positive = Some sample_Error.
Proof.
  apply (round_trip_drops_cause tg fg pack_all sample_heap 1%positive
           sample_Error).
  - reflexivity.
  - vm_compute. by split.
  - by vm_compute.
  - reflexivity.
Defined.

Lemma store_only_grows_witness :
  ∃ p h',
    WithCause (Some 1%positive) nil_error sample_heap = Ret p h' ∧
    extends sample_heap h' ∧
    errs h' !! 2%positive = Some sample_OK.
Proof.
  destruct (WithCause (Some 1%positive) nil_error sample_heap)
    as [p h'|] eqn:Hrun.
  - destruct (store_only_grows tg fg pack_all unit (λ f _, f) sample_heap h')
      as (_ & _ & _ & _ & HWithCause & _ & _ & _ & _ & _ & _ & _ & Hread).
    exists p, h'. split; [reflexivity|].
    split; [exact (HWithCause _ _ _ Hrun)|].
    exact (proj1 (Hread (HWithCause _ _ _ Hrun) 2%positive sample_OK eq_refl)).
  - vm_compute in Hrun. discriminate Hrun.
Defined.

Lemma FromError_nil_iff_witness :
  foreign "wrap" None (ptr_Error None) ≠ nil_error ∧
  FromError tg fg pack_all (foreign "wrap" None (ptr_Error None)) sample_heap
    = Ret None sample_heap ∧
  Code tg fg pack_all (foreign "wrap" None (ptr_Error None)) sample_heap
    = Panic.
Proof.
  apply (proj2 (FromError_nil_iff tg fg pack_all
                  (foreign "wrap" None (ptr_Error None)) sample_heap)).
  reflexivity.
Defined.
